(* ===================================================================== *)
(* Onchain-secrets client API, threshold re-encryption and tree builder  *)
(* of the cothority repository: a shallow embedding and its properties.  *)
(* ===================================================================== *)

From Stdlib Require Import ZArith Lia String Ascii.
From Stdlib Require DecimalString.
From HB Require Import structures.
Set Warnings "-notation-overridden,-ambiguous-paths,-register-all,-rewrite-rw,-notation-for-abbreviation".
From mathcomp Require Import boot algebra.

(* %Z is Stdlib's Z throughout. *)
Delimit Scope Z_scope with Z.

Set Implicit Arguments.
Unset Strict Implicit.
Unset Printing Implicit Defensive.

(* Go strings are compared with ==; give Stdlib's string its eqType. *)
HB.instance Definition _ := hasDecEq.Build string String.eqb_spec.

(* --------------------------------------------------------------------- *)
(* constructTree (app/conode build command)                              *)
(* --------------------------------------------------------------------- *)
Module Build.

(* A Go pointer *graphs.Tree is an address in a store of tree cells. *)
Definition ptr := nat.

(* graphs.Tree, with the three fields constructTree touches. *)
Record Tree := mkTree { Name : string; PubKey : string; Children : seq ptr }.

Definition heap := seq Tree.

(* new(graphs.Tree): a zeroed cell at a fresh address. *)
Definition zeroTree : Tree := mkTree EmptyString EmptyString [::].

Definition new (h : heap) : heap * ptr := (rcons h zeroTree, size h).

Definition cell (h : heap) (p : ptr) : Tree := nth zeroTree h p.

Definition store (h : heap) (p : ptr) (c : Tree) : heap := set_nth zeroTree h p c.

(* Result of running Go code that may index a slice out of range. *)
Inductive outcome (A : Type) : Type :=
| Done of A
| Panic
| OutOfFuel.
Arguments Panic {A}.
Arguments OutOfFuel {A}.

(* s[i] on a Go slice: panics when i is out of range. *)
Definition index_slice (A : Type) (s : seq A) (i : nat) : option A :=
  if i < size s then ohead (drop i s) else None.

(* Loop state: the store, the queue bfs and the next host index. *)
Record state := mkState { st_heap : heap; st_bfs : seq ptr; st_index : nat }.

(* One pass through the body of the inner loop, as far as the store goes:
   child := new(graphs.Tree); child.Name = hn; child.PubKey = pk;
   t.Children = append(t.Children, child). *)
Definition attach (h : heap) (t : ptr) (hn pk : string) : heap * ptr :=
  let: (h1, child) := new h in
  let h2 := store h1 child (mkTree hn (PubKey (cell h1 child))
                                   (Children (cell h1 child))) in
  let h3 := store h2 child (mkTree (Name (cell h2 child)) pk
                                   (Children (cell h2 child))) in
  let h4 := store h3 t (mkTree (Name (cell h3 t)) (PubKey (cell h3 t))
                               (rcons (Children (cell h3 t)) child)) in
  (h4, child).

(* The inner loop: for lbf < bf && index < len(hosts) { ... }. *)
Fixpoint inner (fuel : nat) (hosts pubs : seq string) (bf : Z) (t : ptr)
    (lbf : nat) (s : state) : outcome state :=
  if (Z.of_nat lbf <? bf)%Z && (st_index s < size hosts) then
    match fuel with
    | 0 => OutOfFuel
    | fuel'.+1 =>
        match index_slice hosts (st_index s), index_slice pubs (st_index s) with
        | Some hn, Some pk =>
            let: (h', child) := attach (st_heap s) t hn pk in
            inner fuel' hosts pubs bf t lbf.+1
                  (mkState h' (rcons (st_bfs s) child) (st_index s).+1)
        | _, _ => Panic
        end
    end
  else Done s.

(* The outer loop: for len(bfs) > 0 && index < len(hosts) { ... }. *)
Fixpoint outer (fuel : nat) (hosts pubs : seq string) (bf : Z) (s : state)
    : outcome state :=
  if (0 < size (st_bfs s)) && (st_index s < size hosts) then
    match fuel with
    | 0 => OutOfFuel
    | fuel'.+1 =>
        match st_bfs s with
        | t :: _ =>
            let h1 := store (st_heap s) t
                        (mkTree (Name (cell (st_heap s) t))
                                (PubKey (cell (st_heap s) t)) [::]) in
            match inner (size hosts) hosts pubs bf t 0
                        (mkState h1 (st_bfs s) (st_index s)) with
            | Done s' =>
                outer fuel' hosts pubs bf
                      (mkState (st_heap s') (behead (st_bfs s')) (st_index s'))
            | Panic => Panic
            | OutOfFuel => OutOfFuel
            end
        | [::] => Panic
        end
    end
  else Done s.

(* constructTree: returns the root pointer together with the store it
   points into. The loops are run with a budget of iterations computed
   from the input; the theorems show the budget is never exhausted. *)
Definition constructTree (hosts pubs : seq string) (bf : Z)
    : outcome (heap * ptr) :=
  let: (h0, root) := new [::] in
  match index_slice hosts 0, index_slice pubs 0 with
  | Some hn, Some pk =>
      let h1 := store h0 root (mkTree hn (PubKey (cell h0 root))
                                      (Children (cell h0 root))) in
      let h2 := store h1 root (mkTree (Name (cell h1 root)) pk
                                      (Children (cell h1 root))) in
      match outer (size hosts).*2.+1 hosts pubs bf (mkState h2 [:: root] 1) with
      | Done s => Done (st_heap s, root)
      | Panic => Panic
      | OutOfFuel => OutOfFuel
      end
  | _, _ => Panic
  end.

(* The tree a pointer denotes, read back from the store. *)
Inductive tree : Type := Node of string & string & seq tree.

Fixpoint oseq (A : Type) (s : seq (option A)) : option (seq A) :=
  match s with
  | [::] => Some [::]
  | x :: s' => if x is Some a then omap (cons a) (oseq s') else None
  end.

Fixpoint read_tree (fuel : nat) (h : heap) (p : ptr) : option tree :=
  match fuel with
  | 0 => None
  | fuel'.+1 =>
      if p < size h then
        omap (Node (Name (cell h p)) (PubKey (cell h p)))
             (oseq [seq read_tree fuel' h c | c <- Children (cell h p)])
      else None
  end.

Definition root_name (t : tree) : string := let: Node n _ _ := t in n.
Definition kids (t : tree) : seq tree := let: Node _ _ k := t in k.

(* All (host, key) labels of a tree, in preorder. *)
Fixpoint labels (t : tree) : seq (string * string) :=
  let: Node n k ts := t in (n, k) :: flatten [seq labels c | c <- ts].

(* Every node of the tree has at most b children. *)
Fixpoint arity_le (b : nat) (t : tree) : bool :=
  let: Node _ _ ts := t in (size ts <= b) && all (arity_le b) ts.

End Build.


(* --------------------------------------------------------------------- *)
(* The client side of the onchain-secrets service (api.go)               *)
(* --------------------------------------------------------------------- *)
Module Ocs.

Definition byte := Byte.byte.

(* skipchain.SkipBlockID is a byte slice. *)
Definition SkipBlockID := seq byte.

(* onet.ClientError: an error code and a message. *)
Record ClientError := NewClientErrorCode { ErrorCode : Z; ErrorMsg : string }.

Section Client.

(* Types declared outside api.go: kyber's points and scalars, onet's server
   identities, skipchain's blocks, darc's policies and signatures, and the
   documents of the audit reply. *)
Variables (Point Scalar ServerIdentity SkipBlock Darc DarcSignature ReadDoc : Type).

(* What NewWrite computes for the key; api.go only sets the Data field. *)
Variable EncKey : Type.

(* The error codes of the package (constants declared outside api.go). *)
Variables (ErrorParameter ErrorProtocol : Z).

(* darc.Signature{Signature: sig} *)
Variable mkDarcSignature : seq byte -> DarcSignature.

(* schnorr.Sign(suite, private, msg): a signature, or an error message. *)
Variable schnorr_Sign : Scalar -> seq byte -> string + seq byte.

Record Roster := mkRoster { List : seq ServerIdentity }.

Record SkipChainURL := mkSkipChainURL { Roster_of : Roster; Genesis : SkipBlockID }.

Record Write := mkWrite { EncryptedKey : EncKey; Data : seq byte }.

(* NewWrite(suite, genesis, X, acl, symKey) and DecodeKey(suite, X, Cs,
   XhatEnc, reader): defined next to api.go, not in it. *)
Variable NewWrite : SkipBlockID -> Point -> Darc -> seq byte -> Write.
Variable DecodeKey : Point -> seq Point -> Point -> Scalar -> string + seq byte.

(* The request and reply structures, with the fields api.go reads or sets. *)
Record SharedPublicRequest := mkSharedPublicRequest { SP_Genesis : SkipBlockID }.
Record SharedPublicReply := mkSharedPublicReply { SP_X : Point }.
Record WriteRequest_msg := mkWriteRequest
  { WR_Write : Write; WR_Readers : Darc; WR_OCS : SkipBlockID;
    WR_Signature : DarcSignature }.
Record WriteReply := mkWriteReply { WR_SB : option SkipBlock }.
Record Read := mkRead { Read_DataID : SkipBlockID; Read_Signature : DarcSignature }.
Record ReadRequest_msg := mkReadRequest { RR_Read : Read; RR_OCS : SkipBlockID }.
Record ReadReply := mkReadReply { RR_SB : option SkipBlock }.
Record DecryptKeyRequest_msg := mkDecryptKeyRequest { DK_Read : SkipBlockID }.
Record DecryptKeyReply := mkDecryptKeyReply
  { DK_X : Point; DK_Cs : seq Point; DK_XhatEnc : Point }.
Record GetReadRequests_msg := mkGetReadRequests
  { GR_Start : SkipBlockID; GR_Count : Z }.
Record GetReadRequestsReply := mkGetReadRequestsReply { Documents : seq ReadDoc }.
Record UpdateDarc := mkUpdateDarc { UD_Darc : Darc; UD_OCS : SkipBlockID }.
Record UpdateDarcReply := mkUpdateDarcReply { UD_SB : option SkipBlock }.

(* Anything the client puts on the wire. *)
Inductive Msg : Type :=
| MSharedPublic of SharedPublicRequest
| MWrite of WriteRequest_msg
| MRead of ReadRequest_msg
| MDecryptKey of DecryptKeyRequest_msg
| MGetReadRequests of GetReadRequests_msg
| MUpdateDarc of UpdateDarc.

(* The conodes, seen from the client: one handler per request type, acting
   on the state S of the service. A handler answers with a reply or with
   the ClientError that SendProtobuf hands back. *)
Variable S : Type.

Definition handler (Req Rep : Type) : Type :=
  option ServerIdentity -> Req -> S -> (ClientError + Rep) * S.

Record Service := mkService {
  onSharedPublic : handler SharedPublicRequest SharedPublicReply;
  onWrite : handler WriteRequest_msg WriteReply;
  onRead : handler ReadRequest_msg ReadReply;
  onDecryptKey : handler DecryptKeyRequest_msg DecryptKeyReply;
  onGetReadRequests : handler GetReadRequests_msg GetReadRequestsReply;
  onUpdateDarc : handler UpdateDarc UpdateDarcReply
}.

Variable svc : Service.

(* The source of rand.Int() behind Roster.RandomServerIdentity. *)
Variable rnd : nat -> nat.

(* A nil slice and a nil error are [::] and None; a nil block pointer is
   None. When SendProtobuf fails the reply structure is left zeroed. *)

(* Everything a call can change: the messages sent so far (with their
   destination), the state of the service, and the number of random draws. *)
Record World := mkWorld
  { wire : seq (option ServerIdentity * Msg); nodes : S; draws : nat }.

Definition M (A : Type) : Type := World -> A * World.

Definition ret (A : Type) (a : A) : M A := fun w => (a, w).

Definition bind (A B : Type) (c : M A) (k : A -> M B) : M B :=
  fun w => let: (a, w') := c w in k a w'.

Notation "x <- c ;; k" := (bind c (fun x => k))
  (at level 100, c at next level, right associativity).

(* ro.RandomServerIdentity(): nil for an empty roster. *)
Definition RandomServerIdentity (ro : Roster) : M (option ServerIdentity) :=
  fun w =>
    (ohead (drop (rnd (draws w) %% size (List ro)) (List ro)),
     mkWorld (wire w) (nodes w) (draws w).+1).

(* c.SendProtobuf(dst, msg, reply): the message goes on the wire and the
   service answers. *)
Definition SendProtobuf (Req Rep : Type) (tag : Req -> Msg)
    (h : handler Req Rep) (dst : option ServerIdentity) (msg : Req)
    : M (ClientError + Rep) :=
  fun w =>
    let: (r, s') := h dst msg (nodes w) in
    (r, mkWorld (rcons (wire w) (dst, tag msg)) s' (draws w)).

(* EditAccount sends the darc to the first node of the roster; indexing an
   empty roster panics (None). *)
Definition EditAccount (ocs : SkipChainURL) (d : Darc)
    : World -> option ((option SkipBlock * option ClientError) * World) :=
  fun w =>
    match List (Roster_of ocs) with
    | [::] => None
    | dst :: _ =>
        let req := mkUpdateDarc d (Genesis ocs) in
        Some ((reply <- SendProtobuf MUpdateDarc (onUpdateDarc svc)
                                     (Some dst) req ;;
               match reply with
               | inl cerr => ret (None, Some cerr)
               | inr reply => ret (UD_SB reply, None)
               end) w)
    end.

(* len(encData) > 1e7 *)
Definition too_big (encData : seq byte) : bool :=
  (Z.of_nat (size encData) >? 10000000)%Z.

(* sig and acl are pointers in the source; they are taken non-nil. *)
Definition WriteRequest (ocs : SkipChainURL) (encData symKey : seq byte)
    (sig : DarcSignature) (acl : Darc)
    : M (option SkipBlock * option ClientError) :=
  if too_big encData then
    ret (None, Some (NewClientErrorCode ErrorParameter
                       "Cannot store data bigger than 10MB"))
  else
    let requestShared := mkSharedPublicRequest (Genesis ocs) in
    dst <- RandomServerIdentity (Roster_of ocs) ;;
    shared <- SendProtobuf MSharedPublic (onSharedPublic svc) dst requestShared ;;
    match shared with
    | inl cerr => ret (None, Some cerr)
    | inr shared =>
        let write := NewWrite (Genesis ocs) (SP_X shared) acl symKey in
        let write := mkWrite (EncryptedKey write) encData in
        let wr := mkWriteRequest write acl (Genesis ocs) sig in
        dst <- RandomServerIdentity (Roster_of ocs) ;;
        reply <- SendProtobuf MWrite (onWrite svc) dst wr ;;
        match reply with
        | inl cerr => ret (None, Some cerr)
        | inr reply => ret (WR_SB reply, None)
        end
    end.

Definition ReadRequest (ocs : SkipChainURL) (dataID : SkipBlockID)
    (reader : Scalar) : M (option SkipBlock * option ClientError) :=
  match schnorr_Sign reader dataID with
  | inl err => ret (None, Some (NewClientErrorCode ErrorParameter err))
  | inr sig =>
      let request :=
        mkReadRequest (mkRead dataID (mkDarcSignature sig)) (Genesis ocs) in
      dst <- RandomServerIdentity (Roster_of ocs) ;;
      reply <- SendProtobuf MRead (onRead svc) dst request ;;
      match reply with
      | inl cerr => ret (None, Some cerr)
      | inr reply => ret (RR_SB reply, None)
      end
  end.

Definition DecryptKeyRequest (ocs : SkipChainURL) (readID : SkipBlockID)
    (reader : Scalar) : M (seq byte * option ClientError) :=
  let request := mkDecryptKeyRequest readID in
  dst <- RandomServerIdentity (Roster_of ocs) ;;
  reply <- SendProtobuf MDecryptKey (onDecryptKey svc) dst request ;;
  match reply with
  | inl cerr => ret ([::], Some cerr)
  | inr reply =>
      match DecodeKey (DK_X reply) (DK_Cs reply) (DK_XhatEnc reply) reader with
      | inl err =>
          ret ([::], Some (NewClientErrorCode ErrorProtocol
                             ("couldn't decode sym: " ++ err)))
      | inr sym => ret (sym, None)
      end
  end.

Definition GetReadRequests (ocs : SkipChainURL) (start : SkipBlockID)
    (count : Z) : M (seq ReadDoc * option ClientError) :=
  let request := mkGetReadRequests start count in
  dst <- RandomServerIdentity (Roster_of ocs) ;;
  reply <- SendProtobuf MGetReadRequests (onGetReadRequests svc) dst request ;;
  match reply with
  | inl cerr => ret ([::], Some cerr)
  | inr reply => ret (Documents reply, None)
  end.

End Client.

Arguments MSharedPublic {Darc DarcSignature EncKey} _.
Arguments MRead {Darc DarcSignature EncKey} _.
Arguments MDecryptKey {Darc DarcSignature EncKey} _.
Arguments MGetReadRequests {Darc DarcSignature EncKey} _.

End Ocs.

(* --------------------------------------------------------------------- *)
(* Threshold reconstruction of the re-encrypted key                      *)
(* --------------------------------------------------------------------- *)
Module Threshold.
Import GRing.Theory.
Local Open Scope ring_scope.

Section Scheme.

(* The scalars of the suite form a field, its points a vector space over
   it (a group of prime order, written additively). *)
Variable F : fieldType.
Variable V : lmodType F.

(* The base point of the suite. *)
Variable G : V.

(** Modelled from the spec: the partial share of section 3,
    {NodeID, PartialValue, CorrectnessProof}; the code that makes and
    combines shares is not among the sources. The proof system is a
    parameter: check commitment base value proof. *)
Variables (Proof : Type) (check : V -> V -> V -> Proof -> bool).

Record PartialShare := mkPartialShare
  { NodeID : nat; PartialValue : V; CorrectnessProof : Proof }.

(** Modelled from the spec: the t-out-of-n scheme established at DKG time
    (sections 2 and 4.4). The shared secret is the value at 0 of a secret
    polynomial, given by its coefficients, lowest degree first; node i
    holds its value at i + 1 and publishes the commitment share *: G; the
    shared public key is secret *: G. *)
Definition point (i : nat) : F := i.+1%:R.

Definition share (coefs : seq F) (i : nat) : F := horner_rec coefs (point i).

Definition secret (coefs : seq F) : F := horner_rec coefs 0.

Definition commitment (coefs : seq F) (i : nat) : V := share coefs i *: G.

(** Modelled from the spec: a share is valid when its correctness proof
    checks against the public commitment of the node that sent it
    (section 4.4, "valid shares (proof-checked)"). *)
Definition valid_share (coefs : seq F) (P : V) (sh : PartialShare) : bool :=
  check (commitment coefs (NodeID sh)) P (PartialValue sh) (CorrectnessProof sh).

Definition points (shares : seq PartialShare) : seq F :=
  [seq point (NodeID sh) | sh <- shares].

(** Modelled from the spec: "standard Lagrange-interpolation-style
    combination" (section 4.4): the coefficient of the share at i is the
    value at 0 of the Lagrange basis polynomial of i among the points of
    the shares combined. *)
Definition lagrange0 (ids : seq F) (i : F) : F :=
  foldr (fun j acc => if j != i then (j / (j - i)) * acc else acc) 1 ids.

Definition reconstruct (shares : seq PartialShare) : V :=
  foldr (fun sh acc =>
           lagrange0 (points shares) (point (NodeID sh)) *: PartialValue sh + acc)
        0 shares.

End Scheme.

End Threshold.

(* --------------------------------------------------------------------- *)
(* The service behind the client calls                                   *)
(* --------------------------------------------------------------------- *)
Module Service.
Import GRing.Theory Threshold Ocs.
Local Open Scope ring_scope.

Section Deployment.

Variable F : fieldType.
Variable V : lmodType F.
Variable G : V.
Variables (Proof : Type) (check : V -> V -> V -> Proof -> bool).

(* kyber's Point.Embed and Point.Data: bytes to points and back. *)
Variable embed : seq byte -> seq V.
Variable unembed : seq V -> string + seq byte.

(* The identity (public key) under which a signature on a message
   verifies, if there is one. *)
Variable signer_of : seq byte -> seq byte -> option V.

(* The error codes of the taxonomy of section 7. *)
Variables (ErrorParameter ErrorProtocol ErrorPolicy ErrorLedger ErrorShares : Z).

Definition ParameterError : ClientError :=
  NewClientErrorCode ErrorParameter "Cannot store data bigger than 10MB".
Definition PolicyViolation : ClientError :=
  NewClientErrorCode ErrorPolicy "policy violation".
Definition LedgerInconsistency : ClientError :=
  NewClientErrorCode ErrorLedger "ledger inconsistency".
Definition InsufficientShares : ClientError :=
  NewClientErrorCode ErrorShares "insufficient shares".

(** Modelled from the spec: the policy object of sections 3 and 4.1 (the
    darc package is not among the sources). Rules map an action name to an
    expression over identities; identities are public keys. *)
Inductive Expr : Type :=
| Ident of V
| AnyOf of seq V
| ThresholdOf of nat & seq V
| And of Expr & Expr
| Or of Expr & Expr.

Record Darc := mkDarc
  { BaseID : nat; Version : nat; Rules : seq (string * Expr);
    PrevDarcSignature : option (seq byte) }.

(* The bytes of a policy that an evolution signature covers. *)
Variable digest : nat -> nat -> seq (string * Expr) -> seq byte.

(** Modelled from the spec: Authorize(policy, action, identity), section
    4.1: the rule expression of the action, evaluated for one identity. A
    threshold of k over a key set holds for a single signer when k is at
    most the number of its keys that signed. *)
Fixpoint holds (e : Expr) (id : V) : bool :=
  match e with
  | Ident p => id == p
  | AnyOf keys => id \in keys
  | ThresholdOf k keys => (k <= (id \in keys))%N
  | And a b => holds a id && holds b id
  | Or a b => holds a id || holds b id
  end.

Definition rule (d : Darc) (action : string) : option Expr :=
  omap snd (ohead [seq r <- Rules d | r.1 == action]).

Definition Authorize (d : Darc) (action : string) (id : V) : bool :=
  if rule d action is Some e then holds e id else false.

(** Modelled from the spec: Evolve(current, proposed, signature), section
    4.1: same BaseID, version one more than the current one, and a
    signature valid under an identity the current "evolve" rule permits;
    PolicyViolation otherwise. *)
Definition evolves (current proposed : Darc) (signature : seq byte) : bool :=
  [&& BaseID proposed == BaseID current,
      Version proposed == (Version current).+1
    & if signer_of (digest (BaseID proposed) (Version proposed) (Rules proposed))
                   signature is Some id
      then Authorize current "evolve" id else false].

Definition Evolve (current proposed : Darc) (signature : seq byte)
    : ClientError + Darc :=
  if evolves current proposed signature then inr proposed
  else inl PolicyViolation.

(** Modelled from the spec: the records of section 3 and the ledger as an
    append-only sequence of blocks, a block being identified by its
    position (the skipchain package is not among the sources). *)
Record WriteRecord := mkWriteRecord
  { CiphertextRef : seq byte; ThresholdEncryptedKey : V * seq V;
    PolicyRef : Darc; WriterSignature : seq byte }.

Record ReadRecord := mkReadRecord
  { DataID : SkipBlockID; RequesterPublicKey : V; RequesterSignature : seq byte }.

Inductive Block : Type :=
| BWrite of WriteRecord
| BRead of ReadRecord
| BDarc of Darc.

Record SkipBlock := mkSkipBlock { Index : nat; Hash : SkipBlockID; Payload : Block }.

Record State := mkState { ledger : seq Block }.

Definition blockID (n : nat) : SkipBlockID := nseq n.+1 Byte.x00.

Definition index_of (id : SkipBlockID) : option nat :=
  if id is b :: r then
    if List.forallb (Byte.eqb Byte.x00) id then Some (size r) else None
  else None.

Definition fetch (s : State) (id : SkipBlockID) : option Block :=
  if index_of id is Some n then
    if (n < size (ledger s))%N then ohead (drop n (ledger s)) else None
  else None.

Definition append (s : State) (b : Block) : SkipBlock * State :=
  (mkSkipBlock (size (ledger s)) (blockID (size (ledger s))) b,
   mkState (rcons (ledger s) b)).

Definition darcs (s : State) : seq Darc :=
  pmap (fun b => if b is BDarc d then Some d else None) (ledger s).

(** Modelled from the spec: Resolve(base, chain-lookup), section 4.1: the
    lineage from a darc along valid evolution edges to its latest valid
    descendant. *)
Fixpoint lineage (fuel : nat) (ds : seq Darc) (cur : Darc) : seq Darc :=
  match fuel with
  | 0 => [:: cur]
  | fuel'.+1 =>
      match [seq d <- ds | if PrevDarcSignature d is Some sg
                           then evolves cur d sg else false] with
      | next :: _ => cur :: lineage fuel' ds next
      | [::] => [:: cur]
      end
  end.

Definition Resolve (s : State) (base : Darc) : seq Darc :=
  lineage (size (ledger s)) (darcs s) base.

Definition latest (s : State) (base : Darc) : Darc := last base (Resolve s base).

(* The DKG output: the secret polynomial, the threshold t and the number
   n of nodes; what each node answers to a decrypt request for a base
   point (nothing, when it is down or late). *)
Variables (coefs : seq F) (t n : nat).
Variable answer : nat -> V -> option (PartialShare V Proof).

Definition X : V := secret coefs *: G.

(** Modelled from the spec: the aggregation of section 4.4: the request
    goes to all n nodes, shares whose proof does not check are discarded,
    and the first t valid ones are combined. *)
Definition gather (P : V) : seq (PartialShare V Proof) :=
  pmap (fun i =>
          if answer i P is Some sh then
            if (NodeID sh == i) && valid_share G check coefs P sh
            then Some sh else None
          else None)
       (iota 0 n).

(** Modelled from the spec: encryption of the symmetric key under the
    shared public key (section 4.2) and the requester's local decryption
    (section 4.4); NewWrite and DecodeKey are called by api.go and defined
    elsewhere. r is the writer's fresh scalar. *)
Variable r : F.

Definition NewWrite (genesis : SkipBlockID) (X : V) (acl : Darc)
    (symKey : seq byte) : Write (V * seq V) :=
  mkWrite (r *: G, [seq r *: X + K | K <- embed symKey]) [::].

Definition DecodeKey (X : V) (Cs : seq V) (XhatEnc : V) (xc : F)
    : string + seq byte :=
  unembed [seq C - (XhatEnc - xc *: X) | C <- Cs].

Definition Request := Msg Darc (seq byte) (V * seq V).

(** Modelled from the spec: the handlers of the calls of section 6. *)
Definition onSharedPublic : handler nat State SharedPublicRequest
                                    (SharedPublicReply V) :=
  fun _ _ s => (inr (mkSharedPublicReply X), s).

Definition onWrite : handler nat State
                             (WriteRequest_msg Darc (seq byte) (V * seq V))
                             (WriteReply SkipBlock) :=
  fun _ wr s =>
    if too_big (Data (WR_Write wr)) then (inl ParameterError, s)
    else
      let rec := mkWriteRecord (Data (WR_Write wr))
                               (EncryptedKey (WR_Write wr))
                               (WR_Readers wr) (WR_Signature wr) in
      let: (sb, s') := append s (BWrite rec) in
      (inr (mkWriteReply (Some sb)), s').

Definition fetch_write (s : State) (id : SkipBlockID) : option WriteRecord :=
  if fetch s id is Some (BWrite w) then Some w else None.

Definition fetch_read (s : State) (id : SkipBlockID) : option ReadRecord :=
  if fetch s id is Some (BRead rd) then Some rd else None.

Definition onRead : handler nat State (ReadRequest_msg (seq byte))
                            (ReadReply SkipBlock) :=
  fun _ rr s =>
    let dataID := Read_DataID (RR_Read rr) in
    let sig := Read_Signature (RR_Read rr) in
    match fetch_write s dataID with
    | None => (inl LedgerInconsistency, s)
    | Some w =>
        match signer_of dataID sig with
        | Some id =>
            if Authorize (latest s (PolicyRef w)) "read" id then
              let: (sb, s') := append s (BRead (mkReadRecord dataID id sig)) in
              (inr (mkReadReply (Some sb)), s')
            else (inl PolicyViolation, s)
        | None => (inl PolicyViolation, s)
        end
    end.

Definition onDecryptKey : handler nat State DecryptKeyRequest_msg
                                  (DecryptKeyReply V) :=
  fun _ dk s =>
    match fetch_read s (DK_Read dk) with
    | None => (inl LedgerInconsistency, s)
    | Some rd =>
        match fetch_write s (DataID rd) with
        | None => (inl LedgerInconsistency, s)
        | Some w =>
            if (signer_of (DataID rd) (RequesterSignature rd)
                  == Some (RequesterPublicKey rd))
               && Authorize (latest s (PolicyRef w)) "read"
                            (RequesterPublicKey rd)
            then
              let P := (ThresholdEncryptedKey w).1 + RequesterPublicKey rd in
              let shares := take t (gather P) in
              if (size shares < t)%N then (inl InsufficientShares, s)
              else (inr (mkDecryptKeyReply X (ThresholdEncryptedKey w).2
                                           (reconstruct shares)), s)
            else (inl PolicyViolation, s)
        end
    end.

Definition reads_from (l : seq Block) : seq ReadRecord :=
  pmap (fun b => if b is BRead rd then Some rd else None) l.

Definition same_id (a b : SkipBlockID) : bool := index_of a == index_of b.

Definition onGetReadRequests : handler nat State GetReadRequests_msg
                                       (GetReadRequestsReply ReadRecord) :=
  fun _ gr s =>
    match fetch s (GR_Start gr), index_of (GR_Start gr) with
    | Some b, Some i =>
        if (GR_Count gr =? 0)%Z then
          if b is BWrite _ then
            (inr (mkGetReadRequestsReply
                    [seq rd <- reads_from (ledger s)
                    | same_id (DataID rd) (GR_Start gr)]), s)
          else (inl ParameterError, s)
        else
          (inr (mkGetReadRequestsReply
                  (take (Z.to_nat (GR_Count gr))
                        (reads_from (drop i (ledger s))))), s)
    | _, _ => (inl LedgerInconsistency, s)
    end.

(* A darc with a new BaseID is anchored as a genesis darc (version 0); one
   with a known BaseID has to evolve the latest darc of its lineage. *)
Definition onUpdateDarc : handler nat State (UpdateDarc Darc)
                                  (UpdateDarcReply SkipBlock) :=
  fun _ ud s =>
    let d := UD_Darc ud in
    let accept :=
      let: (sb, s') := append s (BDarc d) in
      (inr (mkUpdateDarcReply (Some sb)), s') in
    match [seq c <- darcs s | BaseID c == BaseID d] with
    | [::] => if Version d == 0%N then accept else (inl PolicyViolation, s)
    | genesis :: _ =>
        let current := latest s genesis in
        if PrevDarcSignature d is Some sg then
          if Evolve current d sg is inr _ then accept
          else (inl PolicyViolation, s)
        else (inl PolicyViolation, s)
    end.

Definition service : Ocs.Service V nat SkipBlock Darc (seq byte) ReadRecord
                                 (V * seq V) State :=
  mkService onSharedPublic onWrite onRead onDecryptKey onGetReadRequests
            onUpdateDarc.

End Deployment.

End Service.

(* --------------------------------------------------------------------- *)
(* What a caller receives                                                *)
(* --------------------------------------------------------------------- *)
Module Transcript.
Import Ocs.

Section Replies.

Variables (Point ServerIdentity SkipBlock Darc DarcSignature ReadDoc : Type).
Variables (EncKey S : Type).
Variable svc : Service Point ServerIdentity SkipBlock Darc DarcSignature
                       ReadDoc EncKey S.

(* What SendProtobuf hands back to the caller: the reply of the handler of
   the message, or its error. *)
Inductive Reply : Type :=
| ASharedPublic of ClientError + SharedPublicReply Point
| AWrite of ClientError + WriteReply SkipBlock
| ARead of ClientError + ReadReply SkipBlock
| ADecryptKey of ClientError + DecryptKeyReply Point
| AGetReadRequests of ClientError + GetReadRequestsReply ReadDoc
| AUpdateDarc of ClientError + UpdateDarcReply SkipBlock.

(* The service handles one message in state s: the reply and the state
   after it. *)
Definition handle (dst : option ServerIdentity)
    (m : Msg Darc DarcSignature EncKey) (s : S) : Reply * S :=
  match m with
  | MSharedPublic q =>
      let: (a, s') := onSharedPublic svc dst q s in (ASharedPublic a, s')
  | MWrite q => let: (a, s') := onWrite svc dst q s in (AWrite a, s')
  | MRead q => let: (a, s') := onRead svc dst q s in (ARead a, s')
  | MDecryptKey q =>
      let: (a, s') := onDecryptKey svc dst q s in (ADecryptKey a, s')
  | MGetReadRequests q =>
      let: (a, s') := onGetReadRequests svc dst q s in (AGetReadRequests a, s')
  | MUpdateDarc q =>
      let: (a, s') := onUpdateDarc svc dst q s in (AUpdateDarc a, s')
  end.

(* A sequence of messages handled one after the other. *)
Fixpoint handles (msgs : seq (option ServerIdentity * Msg Darc DarcSignature EncKey))
    (s : S) : seq Reply * S :=
  match msgs with
  | [::] => ([::], s)
  | x :: msgs' =>
      let: (a, s') := handle x.1 x.2 s in
      let: (l, s'') := handles msgs' s' in
      (a :: l, s'')
  end.

(* The messages a call sends from world w, and the replies to them. *)
Definition sent (A : Type) (c : M ServerIdentity Darc DarcSignature EncKey S A)
    (w : World ServerIdentity Darc DarcSignature EncKey S)
    : seq (option ServerIdentity * Msg Darc DarcSignature EncKey) :=
  drop (size (wire w)) (wire (c w).2).

Definition received (A : Type) (c : M ServerIdentity Darc DarcSignature EncKey S A)
    (w : World ServerIdentity Darc DarcSignature EncKey S) : seq Reply :=
  (handles (sent c w) (nodes w)).1.

(* The world after a call is the world before it with the messages the call
   sent added to the wire, the service having handled them in order, and one
   random draw taken for each. *)
Definition replayed (A : Type) (c : M ServerIdentity Darc DarcSignature EncKey S A)
    (w : World ServerIdentity Darc DarcSignature EncKey S) : Prop :=
  (c w).2 = mkWorld (wire w ++ sent c w) (handles (sent c w) (nodes w)).2
                    (draws w + size (sent c w)).

(* The world after one more random draw. *)
Definition after_draw (w : World ServerIdentity Darc DarcSignature EncKey S)
    : World ServerIdentity Darc DarcSignature EncKey S :=
  mkWorld (wire w) (nodes w) (draws w).+1.

End Replies.

Arguments ASharedPublic {Point SkipBlock ReadDoc} _.
Arguments AWrite {Point SkipBlock ReadDoc} _.
Arguments ARead {Point SkipBlock ReadDoc} _.
Arguments ADecryptKey {Point SkipBlock ReadDoc} _.
Arguments AGetReadRequests {Point SkipBlock ReadDoc} _.
Arguments AUpdateDarc {Point SkipBlock ReadDoc} _.

End Transcript.

(* --------------------------------------------------------------------- *)
(* What an observer sees of the encrypted key                            *)
(* --------------------------------------------------------------------- *)
Module Secrecy.
Import GRing.Theory Threshold Ocs Service Transcript.
Local Open Scope ring_scope.

Section Views.

Variable F : fieldType.
Variable V : lmodType F.

(* The observer's reading of the points Cs of an encrypted key. *)
Variable f : seq V -> seq V.

Definition view_key (e : V * seq V) : V * seq V := (e.1, f e.2).

Definition view_record (w : WriteRecord V) : WriteRecord V :=
  mkWriteRecord (CiphertextRef w) (view_key (ThresholdEncryptedKey w))
                (PolicyRef w) (WriterSignature w).

Definition view_block (b : Block V) : Block V :=
  if b is BWrite w then BWrite (view_record w) else b.

Definition view_sb (sb : SkipBlock V) : SkipBlock V :=
  mkSkipBlock (Index sb) (Hash sb) (view_block (Payload sb)).

Definition view_state (s : State V) : State V :=
  mkState [seq view_block b | b <- ledger s].

Definition view_msg (m : Request V) : Request V :=
  match m with
  | MWrite wr =>
      MWrite (mkWriteRequest
                (mkWrite (view_key (EncryptedKey (WR_Write wr)))
                         (Data (WR_Write wr)))
                (WR_Readers wr) (WR_OCS wr) (WR_Signature wr))
  | _ => m
  end.

Definition view_reply (a : Reply V (SkipBlock V) (ReadRecord V))
    : Reply V (SkipBlock V) (ReadRecord V) :=
  match a with
  | AWrite (inr rep) => AWrite (inr (mkWriteReply (omap view_sb (WR_SB rep))))
  | ARead (inr rep) => ARead (inr (mkReadReply (omap view_sb (RR_SB rep))))
  | ADecryptKey (inr rep) =>
      ADecryptKey (inr (mkDecryptKeyReply (DK_X rep) (f (DK_Cs rep))
                                          (DK_XhatEnc rep)))
  | AUpdateDarc (inr rep) =>
      AUpdateDarc (inr (mkUpdateDarcReply (omap view_sb (UD_SB rep))))
  | _ => a
  end.

Definition view_result (res : option (SkipBlock V) * option ClientError)
    : option (SkipBlock V) * option ClientError :=
  (omap view_sb res.1, res.2).

Definition view_world
    (w : World nat (Darc V) (seq byte) (V * seq V) (State V))
    : World nat (Darc V) (seq byte) (V * seq V) (State V) :=
  mkWorld [seq (x.1, view_msg x.2) | x <- wire w] (view_state (nodes w))
          (draws w).

End Views.

Section Hide.

Variable F : fieldType.
Variable V : lmodType F.
Variable G : V.
Variable embed : seq byte -> seq V.
Variable coefs : seq F.
Variable r : F.

(* The points NewWrite makes of a key under the shared public key. *)
Definition sealed (k : seq byte) : seq V :=
  [seq r *: X G coefs + K | K <- embed k].

(* The observer for whom the encryptions of the keys k1 and k2 look alike,
   and who reads everything else as it is. *)
Definition hide (k1 k2 : seq byte) (Cs : seq V) : seq V :=
  if (Cs == sealed k1) || (Cs == sealed k2) then [::] else Cs.

End Hide.

Section Keys.

Variable F : fieldType.
Variable V : lmodType F.

(* The points of the encrypted keys that a block, a ledger, a message and a
   reply hold. *)
Definition keys_block (b : Block V) : seq (seq V) :=
  if b is BWrite w then [:: (ThresholdEncryptedKey w).2] else [::].

Definition keys_state (s : State V) : seq (seq V) :=
  flatten [seq keys_block b | b <- ledger s].

Definition keys_sb (sb : option (SkipBlock V)) : seq (seq V) :=
  if sb is Some b then keys_block (Payload b) else [::].

Definition keys_msg (m : Request V) : seq (seq V) :=
  if m is MWrite wr then [:: (EncryptedKey (WR_Write wr)).2] else [::].

Definition keys_reply (a : Reply V (SkipBlock V) (ReadRecord V))
    : seq (seq V) :=
  match a with
  | AWrite (inr rep) => keys_sb (WR_SB rep)
  | ARead (inr rep) => keys_sb (RR_SB rep)
  | ADecryptKey (inr rep) => [:: DK_Cs rep]
  | AUpdateDarc (inr rep) => keys_sb (UD_SB rep)
  | _ => [::]
  end.

Variable svc : Service V nat (SkipBlock V) (Darc V) (seq byte) (ReadRecord V)
                       (V * seq V) (State V).

(* The points pts are the encrypted key of no message that the call c sends
   from w, of no reply to them, and of no block of the ledger the call
   leaves. *)
Definition clear_of (pts : seq V) (A : Type)
    (c : M nat (Darc V) (seq byte) (V * seq V) (State V) A)
    (w : World nat (Darc V) (seq byte) (V * seq V) (State V)) : bool :=
  [&& all (fun x => pts \notin keys_msg x.2) (sent c w),
      all (fun a => pts \notin keys_reply a) (received svc c w)
    & pts \notin keys_state (nodes (c w).2)].

End Keys.

End Secrecy.

(* --------------------------------------------------------------------- *)
(* Observations on the trees constructTree builds                        *)
(* --------------------------------------------------------------------- *)
Module TreeShape.
Import Build.

(* Longest path from the root, counted in edges. *)
Fixpoint height (t : tree) : nat :=
  let: Node _ _ ts := t in foldr maxn 0 [seq (height c).+1 | c <- ts].

Definition label (t : tree) : string * string := let: Node n k _ := t in (n, k).

(* Breadth-first traversal of a forest: level by level, each level from
   left to right. The budget bounds the number of levels. *)
Fixpoint level_order (fuel : nat) (ts : seq tree) : seq (string * string) :=
  if fuel is f.+1 then
    if ts is [::] then [::]
    else [seq label t | t <- ts] ++ level_order f (flatten [seq kids t | t <- ts])
  else [::].

End TreeShape.

(* --------------------------------------------------------------------- *)
(* The build command around constructTree (app/conode)                   *)
(* --------------------------------------------------------------------- *)
Module BuildCmd.
Import Build.

(* A Go int is 64 bits wide. *)
Definition wrap64 (z : Z) : Z := ((z + 2 ^ 63) mod 2 ^ 64 - 2 ^ 63)%Z.

(* strconv's decimal rendering of an int. *)
Definition Itoa (z : Z) : string :=
  DecimalString.NilZero.string_of_int (Z.to_int z).

(* strings.Split(s, sep) for a separator of one byte: the pieces between
   the occurrences of sep, one more than there are occurrences. *)
Fixpoint Split (s : string) (sep : ascii) : seq string :=
  match s with
  | EmptyString => [:: EmptyString]
  | String c s' =>
      if Ascii.eqb c sep then EmptyString :: Split s' sep
      else match Split s' sep with
           | piece :: rest => String c piece :: rest
           | [::] => [:: String c EmptyString]
           end
  end.

(* Number of occurrences of a byte in a string. *)
Fixpoint occ (sep : ascii) (s : string) : nat :=
  match s with
  | EmptyString => 0
  | String c s' => (if Ascii.eqb c sep then 1 else 0) + occ sep s'
  end.

(* What running a command comes to: it returns, it leaves through
   dbg.Fatal (os.Exit), it panics, or the budget of the loops is used up. *)
Inductive run (A : Type) : Type :=
| Return of A
| Exit
| Panicked
| Starved.
Arguments Exit {A}.
Arguments Panicked {A}.
Arguments Starved {A}.

Section Command.

(* An error value is its message. *)
Definition error := string.

(* os.Open(file) followed by bufio.NewScanner: the error of Open, or the
   lines scanner.Text() yields one after the other. *)
Variable open_lines : string -> error + seq string.

(* cliutils.VerifyPort(address, port) with conode.DefaultPort. *)
Variable DefaultPort : Z.
Variable VerifyPort : string -> Z -> error + string.

(* The suite: its points with Null and Add, the reader and writer of
   base64 keys of cliutils, and its name. *)
Variable Point : Type.
Variable Null : Point.
Variable Add : Point -> Point -> Point.
Variable ReadPub64 : string -> Point * option error.
Variable WritePub64 : Point -> error + string.
Variable suiteStr : string.

(* fmt.Sprintf("Hostfile misformatted at line %s", ln): ln is an int, so
   the verb %s renders it as %!s(int=ln). *)
Definition misformatted (ln : Z) : error :=
  ("Hostfile misformatted at line %!s(int=" ++ Itoa ln ++ ")")%string.

(* The scanning loop of readHostFile. *)
Fixpoint scan (lines hosts pubs : seq string) (ln : Z)
    : run (seq string * seq string * option error) :=
  match lines with
  | [::] => Return (hosts, pubs, None)
  | line :: lines' =>
      let ln := wrap64 (ln + 1) in
      let spl := Split line " "%char in
      if size spl != 2 then Return ([::], [::], Some (misformatted ln))
      else
        match VerifyPort (nth EmptyString spl 0) DefaultPort with
        | inl _ => Exit
        | inr h =>
            scan lines' (rcons hosts h) (rcons pubs (nth EmptyString spl 1)) ln
        end
  end.

Definition readHostFile (file : string)
    : run (seq string * seq string * option error) :=
  match open_lines file with
  | inl err => Return ([::], [::], Some err)
  | inr lines => scan lines [::] [::] 0
  end.

(* A line the loop accepts (one space, an address VerifyPort takes), and
   what the loop keeps of it. *)
Definition accepted (line : string) : bool :=
  (occ " "%char line == 1) &&
  (if VerifyPort (nth EmptyString (Split line " "%char) 0) DefaultPort is inr _
   then true else false).

Definition host_of (line : string) : string :=
  if VerifyPort (nth EmptyString (Split line " "%char) 0) DefaultPort is inr h
  then h else EmptyString.

Definition key_of (line : string) : string :=
  nth EmptyString (Split line " "%char) 1.

(* aggregateKeys: the error of ReadPub64 is dropped. *)
Definition aggregateKeys (pubs : seq string) : Point :=
  foldl (fun k0 ki => Add k0 (ReadPub64 ki).1) Null pubs.

(* app.ConfigConode, as Build fills it. *)
Record ConfigConode := mkConfigConode
  { Suite : string; Tree_of : heap * ptr; Hosts : seq string; AggPubKey : string }.

(* Build: the result is the configuration handed to app.WriteTomlConfig
   together with the name of the file it is written to. *)
Definition Build (hostFile : string) (bf : Z) (configFile : string)
    : run (ConfigConode * string) :=
  match readHostFile hostFile with
  | Return (hosts, pubs, Some _) => Exit
  | Return (hosts, pubs, None) =>
      match constructTree hosts pubs bf with
      | Done tree =>
          let k0 := aggregateKeys pubs in
          match WritePub64 k0 with
          | inl _ => Exit
          | inr b => Return (mkConfigConode suiteStr tree hosts b, configFile)
          end
      | Panic => Panicked
      | OutOfFuel => Starved
      end
  | Exit => Exit
  | Panicked => Panicked
  | Starved => Starved
  end.

End Command.

End BuildCmd.

(* --------------------------------------------------------------------- *)
(* Facts about constructTree                                             *)
(* --------------------------------------------------------------------- *)
Module BuildFacts.
Import Build.

(* Arithmetic on nat goes through lia after leaving ssrnat's notations. *)
Ltac nat_hyps :=
  repeat match goal with
  | H : is_true (leq _ _) |- _ => move/leP: H => H
  | H : is_true (_ == _) |- _ => move/eqP: H => H
  | H : is_true (~~ (leq _ _)) |- _ => rewrite -ltnNge in H
  | H : (leq _ _) = false |- _ => move/negbT: H => H
  | H : is_true (~~ (_ == _)) |- _ => move/eqP: H => H
  | H : (_ == _) = false |- _ => move/eqP: H => H
  end.

Ltac nat_goal :=
  try match goal with
  | |- is_true (leq _ _) => apply/leP
  | |- is_true (_ == _) => apply/eqP
  | |- is_true (~~ (leq _ _)) => rewrite -ltnNge; apply/leP
  | |- (leq _ _) = false => apply/negbTE; rewrite -ltnNge; apply/leP
  | |- is_true (~~ (_ == _)) => apply/eqP
  | |- (_ == _) = false => apply/eqP
  end.

Ltac nat_ops :=
  repeat match goal with
  | H : context [addn] |- _ => revert H
  | H : context [subn] |- _ => revert H
  | H : context [muln] |- _ => revert H
  | H : context [double] |- _ => revert H
  end;
  rewrite -?addnn -?plusE -?minusE -?multE; intros.

Ltac nlia := intros; nat_hyps; nat_goal; nat_ops; lia.

Lemma cell_store h p c q : cell (store h p c) q = if q == p then c else cell h q.
Proof. by rewrite /cell /store nth_set_nth. Qed.

Lemma size_store h p c : p < size h -> size (store h p c) = size h.
Proof. by move=> lt; rewrite /store size_set_nth; apply/maxn_idPr. Qed.

Lemma cell_out h p : size h <= p -> cell h p = zeroTree.
Proof. by move=> le; rewrite /cell nth_default. Qed.

Lemma cell_rcons h c q :
  cell (rcons h c) q = if q == size h then c else cell h q.
Proof.
rewrite /cell nth_rcons; case: ltngtP => // lt.
by rewrite nth_default // ltnW.
Qed.

Lemma tree_eta c : mkTree (Name c) (PubKey c) (Children c) = c.
Proof. by case: c. Qed.

Lemma attach_ptr h t hn pk : (attach h t hn pk).2 = size h.
Proof. by []. Qed.

Lemma size_attach h t hn pk :
  t < size h -> size (attach h t hn pk).1 = (size h).+1.
Proof.
move=> lt; rewrite /attach /new /=.
by rewrite !size_store ?size_rcons // ltnS ltnW.
Qed.

Lemma cell_attach h t hn pk q :
  t < size h ->
  cell (attach h t hn pk).1 q =
    if q == t then mkTree (Name (cell h t)) (PubKey (cell h t))
                          (rcons (Children (cell h t)) (size h))
    else if q == size h then mkTree hn pk [::] else cell h q.
Proof.
move=> lt; rewrite /attach /new /= !cell_store !eqxx /= !cell_rcons.
have ne : (t == size h) = false by nlia.
rewrite eqxx ne.
by case: (q == t); case: (q == size h) => //; rewrite cell_out.
Qed.

(* Children point forward, inside the store. *)
Definition wf (h : heap) : Prop :=
  forall p c, p < size h -> c \in Children (cell h p) -> p < c < size h.

(* Addresses met by a preorder walk from p. *)
Fixpoint flatp (fuel : nat) (h : heap) (p : ptr) : seq ptr :=
  if fuel is f.+1
  then p :: flatten [seq flatp f h c | c <- Children (cell h p)]
  else [::].

Definition lab (h : heap) (p : ptr) : string * string :=
  (Name (cell h p), PubKey (cell h p)).

Lemma flatp_fuel h f1 f2 p :
  wf h -> p < size h -> size h - p <= f1 -> size h - p <= f2 ->
  flatp f1 h p = flatp f2 h p.
Proof.
move=> wfh; elim: f1 f2 p => [|f1 IH] [|f2] p lt le1 le2 //=; try by nlia.
congr (_ :: flatten _); apply/eq_in_map => c cin.
have /andP [pc ch] := wfh _ _ lt cin.
by apply: IH => //; nlia.
Qed.

Lemma flatp_ge h f p q : wf h -> p < size h -> q \in flatp f h p -> p <= q.
Proof.
move=> wfh; elim: f p => [|f IH] p lt //=.
rewrite inE => /orP [/eqP-> //|/flattenP [s /mapP [c cin ->]] qin].
have /andP [pc ch] := wfh _ _ lt cin.
by apply: ltnW; apply: leq_trans pc (IH _ ch qin).
Qed.

Lemma flatp_lt h f p q : wf h -> p < size h -> q \in flatp f h p -> q < size h.
Proof.
move=> wfh; elim: f p => [|f IH] p lt //=.
rewrite inE => /orP [/eqP-> //|/flattenP [s /mapP [c cin ->]] qin].
have /andP [pc ch] := wfh _ _ lt cin.
exact: IH ch qin.
Qed.

Lemma count_flatp0 h f t c : wf h -> c < size h -> t < c ->
  count_mem t (flatp f h c) = 0.
Proof.
move=> wfh ch tc; apply/count_memPn/negP => tin.
by have := flatp_ge wfh ch tin; rewrite leqNgt tc.
Qed.

Lemma perm_flatten_nseq (F G : ptr -> seq ptr) (k : ptr -> nat) m cs :
  (forall c, c \in cs -> perm_eq (F c) (G c ++ nseq (k c) m)) ->
  perm_eq (flatten [seq F c | c <- cs])
          (flatten [seq G c | c <- cs] ++ nseq (sumn [seq k c | c <- cs]) m).
Proof.
elim: cs => [|c cs IH] H //=.
have Hc := H c (mem_head _ _).
have {}IH : perm_eq (flatten [seq F c | c <- cs])
    (flatten [seq G c | c <- cs] ++ nseq (sumn [seq k c | c <- cs]) m).
  by apply: IH => c' cin; apply: H; rewrite inE cin orbT.
rewrite nseqD.
apply: (perm_trans (perm_cat Hc IH)).
by rewrite perm_catACA.
Qed.

Lemma sumn_count0 (F : ptr -> seq ptr) t cs :
  (forall c, c \in cs -> count_mem t (F c) = 0) ->
  sumn [seq count_mem t (F c) | c <- cs] = 0.
Proof.
elim: cs => [|c cs IH] H //=.
by rewrite (H c (mem_head _ _)) IH // => c' cin; apply: H; rewrite inE cin orbT.
Qed.

Lemma flatp_grow h h' t f p :
  wf h -> t < size h -> size h' = (size h).+1 ->
  (forall q, Children (cell h' q) =
     if q == t then rcons (Children (cell h t)) (size h)
     else if q == size h then [::] else Children (cell h q)) ->
  p < size h -> size h' - p <= f ->
  perm_eq (flatp f h' p)
          (flatp f h p ++ nseq (count_mem t (flatp f h p)) (size h)).
Proof.
move=> wfh th sz ch'; elim: f p => [|f IH] p ph le; first by nlia.
have IHc c : c \in Children (cell h p) ->
    perm_eq (flatp f h' c)
            (flatp f h c ++ nseq (count_mem t (flatp f h c)) (size h)).
  move=> cin; have /andP [pc ch] := wfh _ _ ph cin.
  by apply: IH => //; nlia.
have P := perm_flatten_nseq IHc.
rewrite [flatp f.+1 h' p]/= [flatp f.+1 h p]/= ch'.
rewrite [count_mem t (_ :: _)]/= count_flatten -map_comp.
case: (eqVneq p t) => [ept|ne].
- subst p.
  have z : sumn [seq count_mem t (flatp f h c) | c <- Children (cell h t)] = 0.
    apply: sumn_count0 => c cin; have /andP [pc ch] := wfh _ _ th cin.
    exact: count_flatp0.
  have one : flatp f h' (size h) = [:: size h].
    have: 0 < f by nlia.
    case: (f) => [|f'] // _.
    rewrite /= ch' eqxx.
    by have -> : (size h == t) = false by nlia.
  rewrite z cats0 in P.
  rewrite map_rcons flatten_rcons one -[_ \o _]/(fun c => count_mem t (flatp f h c)).
  by rewrite z addn0 /= perm_cons perm_cat2r.
- have -> : (p == size h) = false by nlia.
  by rewrite add0n /= perm_cons.
Qed.

Lemma read_tree_ok h f p :
  wf h -> p < size h -> size h - p <= f ->
  exists T, [/\ read_tree f h p = Some T,
                root_name T = Name (cell h p),
                labels T = [seq lab h q | q <- flatp f h p]
              & forall b, (forall q, q < size h ->
                             size (Children (cell h q)) <= b) ->
                arity_le b T].
Proof.
move=> wfh; elim: f p => [|f IH] p ph le; first by nlia.
have Hcs : forall cs, (forall c, c \in cs -> p < c < size h) ->
    exists Ts, [/\ oseq [seq read_tree f h c | c <- cs] = Some Ts,
                   size Ts = size cs,
                   flatten [seq labels T | T <- Ts] =
                   flatten [seq [seq lab h q | q <- flatp f h c] | c <- cs]
                 & forall b, (forall q, q < size h ->
                                size (Children (cell h q)) <= b) ->
                   all (arity_le b) Ts].
  elim=> [|c cs IHcs] Hc; first by exists [::].
  have /andP [pc ch] := Hc c (mem_head _ _).
  have [|T [e1 _ e3 e4]] := IH c ch; first by nlia.
  have [c' cin|Ts [d1 d2 d3 d4]] := IHcs; first by apply: Hc; rewrite inE cin orbT.
  exists (T :: Ts); split; rewrite /= ?e1 ?d1 ?d2 ?e3 ?d3 //.
  by move=> b Hb; rewrite e4 // d4.
have [c cin|Ts [d1 d2 d3 d4]] := Hcs (Children (cell h p)); first exact: wfh cin.
exists (Node (Name (cell h p)) (PubKey (cell h p)) Ts).
split; rewrite /= ?ph ?d1 //.
- by rewrite d3 map_flatten -map_comp.
- by move=> b Hb; rewrite d2 Hb // d4.
Qed.

Lemma index_slice_nth (A : Type) (x0 : A) (s : seq A) i :
  i < size s -> index_slice s i = Some (nth x0 s i).
Proof.
rewrite /index_slice => lt; rewrite lt.
by rewrite (drop_nth x0 lt).
Qed.

Lemma store_same h t : t < size h -> store h t (cell h t) = h.
Proof.
move=> lt; apply: (@eq_from_nth _ zeroTree); first by rewrite size_store.
by move=> i _; rewrite -/(cell _ i) cell_store; case: eqP => [->|].
Qed.

Lemma inner0E hosts pubs bf t lbf s :
  inner 0 hosts pubs bf t lbf s =
  if (Z.of_nat lbf <? bf)%Z && (st_index s < size hosts)
  then OutOfFuel else Done s.
Proof. by []. Qed.

Lemma innerSE fuel hosts pubs bf t lbf s :
  inner fuel.+1 hosts pubs bf t lbf s =
  if (Z.of_nat lbf <? bf)%Z && (st_index s < size hosts) then
    match index_slice hosts (st_index s), index_slice pubs (st_index s) with
    | Some hn, Some pk =>
        inner fuel hosts pubs bf t lbf.+1
          (mkState (attach (st_heap s) t hn pk).1
                   (rcons (st_bfs s) (size (st_heap s))) (st_index s).+1)
    | _, _ => Panic
    end
  else Done s.
Proof. by []. Qed.

Lemma outer0E hosts pubs bf s :
  outer 0 hosts pubs bf s =
  if (0 < size (st_bfs s)) && (st_index s < size hosts)
  then OutOfFuel else Done s.
Proof. by []. Qed.

Lemma outerSE fuel hosts pubs bf s :
  outer fuel.+1 hosts pubs bf s =
  if (0 < size (st_bfs s)) && (st_index s < size hosts) then
    match st_bfs s with
    | t :: _ =>
        match inner (size hosts) hosts pubs bf t 0
                (mkState (store (st_heap s) t
                            (mkTree (Name (cell (st_heap s) t))
                                    (PubKey (cell (st_heap s) t)) [::]))
                         (st_bfs s) (st_index s)) with
        | Done s' =>
            outer fuel hosts pubs bf
                  (mkState (st_heap s') (behead (st_bfs s')) (st_index s'))
        | Panic => Panic
        | OutOfFuel => OutOfFuel
        end
    | [::] => Panic
    end
  else Done s.
Proof. by []. Qed.

Section Loops.

Variables (hosts pubs : seq string) (bf : Z).
Hypothesis pubs_match : size pubs = size hosts.

(* What both loops maintain. *)
Record inv (s : state) : Prop := Inv {
  inv_size : size (st_heap s) = st_index s;
  inv_pos : 0 < st_index s;
  inv_le : st_index s <= size hosts;
  inv_lab : forall p, p < st_index s ->
            lab (st_heap s) p = (nth EmptyString hosts p, nth EmptyString pubs p);
  inv_wf : wf (st_heap s);
  inv_perm : perm_eq (flatp (st_index s) (st_heap s) 0) (iota 0 (st_index s));
  inv_arity : forall p, p < st_index s ->
              (Z.of_nat (size (Children (cell (st_heap s) p))) <= bf)%Z;
  inv_uniq : uniq (st_bfs s);
  inv_bfs : all (fun p => p < st_index s) (st_bfs s)
}.

(* Queued cells other than the one being filled have no children yet. *)
Definition quiet (except : option ptr) (s : state) : Prop :=
  forall p, p \in st_bfs s -> Some p != except ->
            Children (cell (st_heap s) p) = [::].

Lemma inner_ok fuel t lbf s :
  inv s -> ohead (st_bfs s) = Some t -> quiet (Some t) s ->
  size (Children (cell (st_heap s) t)) = lbf ->
  (Z.of_nat lbf <= bf)%Z ->
  size hosts - st_index s <= fuel ->
  exists s',
    [/\ inner fuel hosts pubs bf t lbf s = Done s',
        inv s' /\ quiet (Some t) s',
        ohead (st_bfs s') = Some t,
        size (st_bfs s') = size (st_bfs s) + (st_index s' - st_index s)
      & st_index s <= st_index s' /\
        ((Z.of_nat lbf < bf)%Z -> st_index s < size hosts ->
         st_index s < st_index s')].
Proof.
have exit lbf0 s0 :
    (Z.of_nat lbf0 <? bf)%Z && (st_index s0 < size hosts) = false ->
    inv s0 -> quiet (Some t) s0 -> ohead (st_bfs s0) = Some t ->
    exists s',
    [/\ Done s0 = Done s',
        inv s' /\ quiet (Some t) s',
        ohead (st_bfs s') = Some t,
        size (st_bfs s') = size (st_bfs s0) + (st_index s' - st_index s0)
      & st_index s0 <= st_index s' /\
        ((Z.of_nat lbf0 < bf)%Z -> st_index s0 < size hosts ->
         st_index s0 < st_index s')].
  move=> E I0 Q0 hd0; exists s0; split=> //; first by rewrite subnn addn0.
  split=> // lt lt'; move: E; rewrite lt' andbT.
  by case: Z.ltb_spec => //; lia.
elim: fuel lbf s => [|fuel IH] lbf s I hd Q szc lbfle fle;
  rewrite ?inner0E ?innerSE; case E: (_ && _); try exact: exit.
  by case/andP: E => _ lt'; nlia.
case/andP: E => /Z.ltb_lt lt lt'.
rewrite (index_slice_nth EmptyString lt').
rewrite (@index_slice_nth _ EmptyString pubs) ?pubs_match //.
case: I => Isz Ipos Ile Ilab Iwf Iperm Iar Iun Ibfs.
have tin : t \in st_bfs s by case: (st_bfs s) hd => [|a l] //= [->]; rewrite mem_head.
have th : t < size (st_heap s) by rewrite Isz; apply: (allP Ibfs).
set hn := nth _ hosts _; set pk := nth _ pubs _.
set h' := (attach _ _ _ _).1.
have sz' : size h' = (st_index s).+1 by rewrite size_attach // Isz.
have ce q : cell h' q = _ := cell_attach hn pk q th.
have che q : Children (cell h' q) =
     if q == t then rcons (Children (cell (st_heap s) t)) (size (st_heap s))
     else if q == size (st_heap s) then [::] else Children (cell (st_heap s) q).
  by rewrite ce; case: (q == t) => //; case: (q == _).
set s1 := mkState _ _ _.
have I1 : inv s1.
  split; rewrite /s1 /=.
  - by rewrite sz'.
  - by [].
  - by [].
  - move=> p; rewrite ltnS leq_eqVlt /lab ce Isz => /orP [/eqP->|lt2].
      have -> : (st_index s == t) = false by nlia.
      by rewrite eqxx.
    case: eqP => [->|_] /=; first by apply: Ilab; rewrite -Isz.
    have -> : (p == st_index s) = false by nlia.
    exact: Ilab.
  - move=> p c; rewrite sz' che Isz => pl.
    case: eqP => [->|_].
      rewrite mem_rcons inE => /orP [/eqP->|cin].
        by rewrite ltnSn andbT -Isz.
      have /andP [tc cl] := Iwf _ _ th cin.
      by rewrite tc /=; nlia.
    case: eqP => [//|ne] cin.
    have pl' : p < size (st_heap s) by nlia.
    have /andP [tc cl] := Iwf _ _ pl' cin.
    by rewrite tc /=; nlia.
  - have P : perm_eq (flatp (st_index s).+1 h' 0)
        (flatp (st_index s).+1 (st_heap s) 0 ++
         nseq (count_mem t (flatp (st_index s).+1 (st_heap s) 0))
              (size (st_heap s))).
      by apply: flatp_grow => //; rewrite ?sz' ?Isz ?subn0.
    move: P; rewrite (@flatp_fuel _ _ (st_index s) 0 Iwf) ?Isz ?subn0 //.
    have -> : count_mem t (flatp (st_index s) (st_heap s) 0) = 1.
      rewrite (permP Iperm) count_uniq_mem ?iota_uniq // mem_iota /= add0n.
      by rewrite -Isz th.
    move=> P; apply: (perm_trans P).
    rewrite -[0 :: _]/(iota 0 (st_index s).+1) -[(st_index s).+1]addn1 iotaD add0n /=.
    by rewrite perm_cat2r.
  - move=> p; rewrite ltnS che => ple.
    case: eqP => [_|_]; first by rewrite size_rcons szc; lia.
    case: eqP => [_|ne] /=; first by lia.
    by apply: Iar; rewrite Isz in ne; nlia.
  - rewrite rcons_uniq Iun andbT.
    by apply/negP => /(allP Ibfs); rewrite Isz ltnn.
  - rewrite all_rcons Isz ltnSn /=.
    by apply: sub_all Ibfs => p pl; apply: ltnW.
have hd1 : ohead (st_bfs s1) = Some t.
  by rewrite /s1 /=; case: (st_bfs s) hd.
have Q1 : quiet (Some t) s1.
  move=> p; rewrite /s1 /= mem_rcons inE che => /orP [/eqP->|pin] net.
    have -> : (size (st_heap s) == t) = false by nlia.
    by rewrite eqxx.
  have -> : (p == t) = false.
    by apply/negbTE; apply: contra net => /eqP->.
  have -> : (p == size (st_heap s)) = false.
    by have := allP Ibfs _ pin; rewrite Isz; nlia.
  exact: Q.
have [|||s' [e1 [I' Q'] hd' sb' [le' _]]] := IH lbf.+1 s1 I1 hd1 Q1.
- by rewrite /s1 /= che eqxx size_rcons szc.
- by lia.
- by rewrite /s1 /=; nlia.
exists s'; split=> //.
- by move: sb' le'; rewrite /s1 /= size_rcons => -> ?; nlia.
- by move: le'; rewrite /s1 /= => le'; split=> [|_ _] //; nlia.
Qed.

Lemma outer_ok fuel s :
  (1 <= bf)%Z -> inv s -> quiet None s -> 0 < size (st_bfs s) ->
  size hosts - st_index s <= fuel ->
  exists s', [/\ outer fuel hosts pubs bf s = Done s', inv s'
                & st_index s' = size hosts].
Proof.
move=> bf1; elim: fuel s => [|fuel IH] s I Q ne fle;
  rewrite ?outer0E ?outerSE ne /=; case: ltnP => lt; try (by nlia);
  try (by exists s; split=> //; have := inv_le I; nlia).
case: s I Q ne fle lt => h [|t bfs] index //= I Q _ fle lt.
have tin : t \in t :: bfs by rewrite mem_head.
have th : t < size h by rewrite (inv_size I); apply: (allP (inv_bfs I)).
have ct : Children (cell h t) = [::] by apply: (Q t).
rewrite -ct tree_eta store_same //.
have [|||||s' [-> [I' Q'] hd' sb' [le' lt']]] :=
  @inner_ok (size hosts) t 0 (mkState h (t :: bfs) index) I.
- by [].
- by move=> p pin _; apply: Q.
- by rewrite /= ct.
- by lia.
- by rewrite /=; nlia.
have {}lt' : index < st_index s' by apply: lt' => //; lia.
case: s' I' Q' hd' sb' le' lt' => h' [|t' bfs'] index' //= I' Q' [e] sb' le' lt'.
subst t'; apply: IH => /=.
- case: I' => /= J1 J2 J3 J4 J5 J6 J7 /andP [_ J8] /andP [_ J9].
  by split.
- move=> p /= pin _; apply: Q'; first by rewrite /= inE pin orbT.
  have /= /andP [nin _] := inv_uniq I'.
  by apply: contra nin => /eqP [<-].
- by case: sb'; nlia.
- by nlia.
Qed.

End Loops.

(* Whatever the input, the loops leave by their own tests or by a panic
   before the budget of constructTree is used up. *)
Lemma inner_shape fuel hosts pubs bf t lbf s s' :
  inner fuel hosts pubs bf t lbf s = Done s' ->
  [/\ st_index s <= st_index s',
      size (st_bfs s') = size (st_bfs s) + (st_index s' - st_index s)
    & st_index s' <= maxn (size hosts) (st_index s)].
Proof.
elim: fuel lbf s => [|fuel IH] lbf s; rewrite ?inner0E ?innerSE;
  case E: (_ && _) => //.
- by case=> <-; split; rewrite ?leq_max ?leqnn ?orbT ?subnn ?addn0.
- case: (index_slice hosts _) => [hn|] //; case: (index_slice pubs _) => [pk|] //.
  move=> /IH /= [le sz mx]; case/andP: E => _ lt.
  split; first exact: ltnW.
    by rewrite sz size_rcons; nlia.
  by apply: leq_trans mx _; rewrite geq_max !leq_max leqnn lt.
- by case=> <-; split; rewrite ?leq_max ?leqnn ?orbT ?subnn ?addn0.
Qed.

Lemma inner_fuel fuel hosts pubs bf t lbf s :
  size hosts - st_index s <= fuel ->
  inner fuel hosts pubs bf t lbf s <> OutOfFuel.
Proof.
elim: fuel lbf s => [|fuel IH] lbf s le; rewrite ?inner0E ?innerSE;
  case E: (_ && _) => //.
  by case/andP: E => _ lt; nlia.
case: (index_slice hosts _) => [hn|] //; case: (index_slice pubs _) => [pk|] //.
by apply: IH => /=; nlia.
Qed.

Lemma outer_fuel fuel hosts pubs bf s :
  (size hosts - st_index s).*2 + size (st_bfs s) <= fuel ->
  outer fuel hosts pubs bf s <> OutOfFuel.
Proof.
elim: fuel s => [|fuel IH] s le; rewrite ?outer0E ?outerSE;
  case E: (_ && _) => //.
  by case/andP: E => ne lt; nlia.
case/andP: E => ne lt.
case B: (st_bfs s) => [|t bfs] //.
case I: (inner _ _ _ _ _ _ _) => [s'| |] //.
  have [/= le' sz mx] := inner_shape I.
  apply: IH => /=; rewrite size_behead sz /=.
  have {}mx : st_index s' <= size hosts.
    by apply: leq_trans mx _; rewrite geq_max leqnn ltnW.
  by move: le; rewrite B /=; nlia.
by exfalso; apply: inner_fuel I; rewrite /= leq_subr.
Qed.

Lemma constructTree_total hosts pubs bf :
  constructTree hosts pubs bf <> OutOfFuel.
Proof.
rewrite /constructTree /new.
case: (index_slice hosts 0) => [hn|] //; case: (index_slice pubs 0) => [pk|] //.
case O: (outer _ _ _ _ _) => [s| |] //.
by exfalso; apply: outer_fuel O => /=; nlia.
Qed.

(** C10: for a non-empty host list with as many public keys and a
    branching factor bf >= 1, constructTree finishes (its loops leave by
    their own tests) and returns a pointer to a tree whose root carries the
    first host, whose nodes carry every (host, key) pair of the input exactly
    once (hence every host exactly once), and no node of which has more than
    bf children. *)
Theorem constructTree_regular (hosts pubs : seq string) (bf : Z) :
  0 < size hosts -> size pubs = size hosts -> (1 <= bf)%Z ->
  exists h root T,
    [/\ constructTree hosts pubs bf = Done (h, root),
        read_tree (size h) h root = Some T,
        root_name T = head EmptyString hosts,
        perm_eq [seq l.1 | l <- labels T] hosts /\
        perm_eq (labels T) (zip hosts pubs)
      & arity_le (Z.to_nat bf) T].
Proof.
case: hosts pubs => [|hn hosts] [|pk pubs] // _ szp bf1.
pose s0 := mkState [:: mkTree hn pk [::]] [:: 0] 1.
have I0 : inv (hn :: hosts) (pk :: pubs) bf s0.
  split=> //=.
  - by case.
  - by case.
  - by case=> //= _; lia.
have Q0 : quiet None s0 by move=> p; rewrite inE => /eqP->.
have [||s' [E I' ix]] :=
  @outer_ok _ _ _ szp (size (hn :: hosts)).*2.+1 s0 bf1 I0 Q0.
- by [].
- by rewrite /=; nlia.
have {E} -> : constructTree (hn :: hosts) (pk :: pubs) bf = Done (st_heap s', 0).
  rewrite -[constructTree _ _ _]/(match outer (size (hn :: hosts)).*2.+1
                                       (hn :: hosts) (pk :: pubs) bf s0 with
                                  | Done s => Done (st_heap s, 0)
                                  | Panic => Panic
                                  | OutOfFuel => OutOfFuel
                                  end).
  by rewrite E.
case: I' => Isz Ipos Ile Ilab Iwf Iperm Iar _ _.
have [||T [e1 e2 e3 e4]] := @read_tree_ok (st_heap s') (size (st_heap s')) 0 Iwf.
- by rewrite Isz.
- by rewrite subn0.
exists (st_heap s'), 0, T.
have Plab : perm_eq (labels T) (zip (hn :: hosts) (pk :: pubs)).
  rewrite e3 Isz.
  apply: (perm_trans (perm_map _ Iperm)).
  have -> // : [seq lab (st_heap s') q | q <- iota 0 (st_index s')] =
               zip (hn :: hosts) (pk :: pubs).
  apply: (@eq_from_nth _ (EmptyString, EmptyString)).
    by rewrite size_map size_iota size_zip szp minnn ix.
  move=> i; rewrite size_map size_iota => lt.
  rewrite (nth_map 0) ?size_iota // nth_iota // add0n Ilab //.
  by rewrite nth_zip.
split=> //.
- by rewrite e2 -[Name _]/(lab _ 0).1 Ilab.
- split=> //.
  have /(perm_map fst) := Plab.
  by rewrite -/unzip1 unzip1_zip // szp.
- apply: e4 => q; rewrite Isz => /Iar le.
  by apply/leP; lia.
Qed.

(* A run on six hosts with branching factor two. *)
Lemma constructTree_regular_witness :
  exists h root T,
    [/\ constructTree [:: "a"; "b"; "c"; "d"; "e"; "f"]%string
                      [:: "1"; "2"; "3"; "4"; "5"; "6"]%string 2 = Done (h, root),
        read_tree (size h) h root = Some T,
        root_name T = "a"%string,
        perm_eq [seq l.1 | l <- labels T]
                [:: "a"; "b"; "c"; "d"; "e"; "f"]%string /\
        perm_eq (labels T)
                (zip [:: "a"; "b"; "c"; "d"; "e"; "f"]%string
                     [:: "1"; "2"; "3"; "4"; "5"; "6"]%string)
      & arity_le 2 T].
Proof.
apply: (@constructTree_regular [:: "a"; "b"; "c"; "d"; "e"; "f"]%string
                             [:: "1"; "2"; "3"; "4"; "5"; "6"]%string 2).
- reflexivity.
- reflexivity.
- lia.
Defined.

(* Runs on concrete host files. *)
Example constructTree_six :
  constructTree [:: "a"; "b"; "c"; "d"; "e"; "f"]%string
                [:: "1"; "2"; "3"; "4"; "5"; "6"]%string 2
  = Done ([:: mkTree "a" "1" [:: 1; 2]; mkTree "b" "2" [:: 3; 4];
              mkTree "c" "3" [:: 5]; mkTree "d" "4" [::];
              mkTree "e" "5" [::]; mkTree "f" "6" [::]], 0).
Proof. by []. Qed.

Example constructTree_no_branching :
  constructTree [:: "a"; "b"; "c"]%string [:: "1"; "2"; "3"]%string 0
  = Done ([:: mkTree "a" "1" [::]], 0).
Proof. by []. Qed.

Example constructTree_short_keys :
  constructTree [:: "a"; "b"; "c"]%string [:: "1"; "2"]%string 2 = Panic.
Proof. by []. Qed.

Example constructTree_no_hosts : constructTree [::] [::] 2 = Panic.
Proof. by []. Qed.

End BuildFacts.

(* --------------------------------------------------------------------- *)
(* Facts about the client calls of api.go                                *)
(* --------------------------------------------------------------------- *)
Module OcsFacts.
Import Ocs.

(* A stand-in deployment for running the calls on concrete inputs: one
   conode that accepts everything and stores nothing. *)
Module Echo.

Definition svc : Service Z nat nat unit (seq byte) unit (seq Z) unit :=
  mkService
    (fun _ _ s => (inr (mkSharedPublicReply 7%Z), s))
    (fun _ _ s => (inr (mkWriteReply (Some 1)), s))
    (fun _ _ s => (inr (mkReadReply (Some 2)), s))
    (fun _ _ s => (inr (mkDecryptKeyReply 7%Z [:: 5%Z] 3%Z), s))
    (fun _ _ s => (inr (mkGetReadRequestsReply [::]), s))
    (fun _ _ s => (inr (mkUpdateDarcReply (Some 3)), s)).

Definition NewWrite (g : SkipBlockID) (X : Z) (acl : unit) (symKey : seq byte)
    : Write (seq Z) :=
  mkWrite [:: (X + Z.of_nat (size symKey))%Z] [::].

Definition DecodeKey (X : Z) (Cs : seq Z) (XhatEnc : Z) (reader : Z)
    : string + seq byte :=
  inr [::].

Definition ocs (g : SkipBlockID) : SkipChainURL nat :=
  mkSkipChainURL (mkRoster [:: 0; 1; 2]) g.

Definition w0 : World nat unit (seq byte) (seq Z) unit := mkWorld [::] tt 0.

(* The public key of a private scalar, over the integers with base 2. *)
Definition pub (x : Z) : Z := (x * 2)%Z.

End Echo.

Local Notation EchoWriteRequest :=
  (Ocs.WriteRequest 4000%Z Echo.NewWrite Echo.svc (fun n => n)).
Local Notation EchoDecryptKeyRequest :=
  (Ocs.DecryptKeyRequest 4001%Z Echo.DecodeKey Echo.svc (fun n => n)).

Section ClientFacts.

Variables (Point Scalar ServerIdentity SkipBlock Darc DarcSignature ReadDoc : Type).
Variables (EncKey S : Type) (ErrorParameter ErrorProtocol : Z).
Variable mkDarcSignature : seq byte -> DarcSignature.
Variable schnorr_Sign : Scalar -> seq byte -> string + seq byte.
Variable NewWrite : SkipBlockID -> Point -> Darc -> seq byte -> Write EncKey.
Variable DecodeKey : Point -> seq Point -> Point -> Scalar -> string + seq byte.
Variable svc : Service Point ServerIdentity SkipBlock Darc DarcSignature
                       ReadDoc EncKey S.
Variable rnd : nat -> nat.

Local Notation WriteRequest := (Ocs.WriteRequest ErrorParameter NewWrite svc rnd).
Local Notation ReadRequest :=
  (Ocs.ReadRequest ErrorParameter mkDarcSignature schnorr_Sign svc rnd).
Local Notation DecryptKeyRequest :=
  (Ocs.DecryptKeyRequest ErrorProtocol DecodeKey svc rnd).
Local Notation World := (World ServerIdentity Darc DarcSignature EncKey S).

(* The node RandomServerIdentity picks in world w. *)
Definition pick (ro : Roster ServerIdentity) (w : World) : option ServerIdentity :=
  ohead (drop (rnd (draws w) %% size (List ro)) (List ro)).

(** C3: a write whose payload is longer than 10,000,000 bytes fails with the
    ErrorParameter code and leaves the world as it was: nothing is sent, no
    conode is picked. A payload of at most 10,000,000 bytes (so one of
    exactly that size) passes the test: the request for the shared key goes
    on the wire, and an error, if one comes back, is one a conode
    answered. *)
Theorem WriteRequest_payload_cap (ocs : SkipChainURL ServerIdentity)
    (encData symKey : seq byte) (sig : DarcSignature) (acl : Darc) (w : World) :
  ((10000000 < Z.of_nat (size encData))%Z ->
   WriteRequest ocs encData symKey sig acl w =
     ((None, Some (NewClientErrorCode ErrorParameter
                     "Cannot store data bigger than 10MB")), w))
  /\
  ((Z.of_nat (size encData) <= 10000000)%Z ->
   (exists rest,
      wire (WriteRequest ocs encData symKey sig acl w).2 = wire w ++
        (pick (Roster_of ocs) w,
         MSharedPublic (mkSharedPublicRequest (Genesis ocs))) :: rest)
   /\
   (forall e, (WriteRequest ocs encData symKey sig acl w).1.2 = Some e ->
      (exists dst rq s, (onSharedPublic svc dst rq s).1 = inl e) \/
      (exists dst rq s, (onWrite svc dst rq s).1 = inl e))).
Proof.
split=> [big|small].
- rewrite /Ocs.WriteRequest /too_big.
  by have -> : (Z.of_nat (size encData) >? 10000000)%Z = true by lia.
rewrite /Ocs.WriteRequest /too_big.
have -> : (Z.of_nat (size encData) >? 10000000)%Z = false by lia.
rewrite /bind /RandomServerIdentity /SendProtobuf /ret /=.
case E1: (onSharedPublic _ _ _ _) => [[e|shared] s1] /=.
  split; first by exists [::]; rewrite cats1.
  move=> e' [<-]; left.
  by do 3 eexists; exact: (congr1 fst E1).
case E2: (onWrite _ _ _ _) => [[e|reply] s2] /=.
  split; first by eexists; rewrite -!cats1 -catA /=; reflexivity.
  move=> e' [<-]; right.
  by do 3 eexists; exact: (congr1 fst E2).
split; first by eexists; rewrite -!cats1 -catA /=; reflexivity.
by [].
Qed.

(* WriteRequest and ReadRequest, step by step. *)
Lemma WriteRequest_run (ocs : SkipChainURL ServerIdentity)
    (encData symKey : seq byte) (sig : DarcSignature) (acl : Darc) (w : World) :
  too_big encData = false ->
  forall shared s1 reply s2,
  onSharedPublic svc (pick (Roster_of ocs) w)
                 (mkSharedPublicRequest (Genesis ocs)) (nodes w)
    = (inr shared, s1) ->
  onWrite svc (pick (Roster_of ocs) (mkWorld (wire w) (nodes w) (draws w).+1))
          (mkWriteRequest
             (mkWrite (EncryptedKey (NewWrite (Genesis ocs) (SP_X shared) acl symKey))
                      encData) acl (Genesis ocs) sig) s1
    = (inr reply, s2) ->
  (WriteRequest ocs encData symKey sig acl w).1 = (WR_SB reply, None) /\
  nodes (WriteRequest ocs encData symKey sig acl w).2 = s2.
Proof.
move=> small shared s1 reply s2.
rewrite /Ocs.WriteRequest small /pick.
rewrite /bind /RandomServerIdentity /SendProtobuf /ret /=.
by move=> -> /= ->.
Qed.

Lemma ReadRequest_run (ocs : SkipChainURL ServerIdentity)
    (dataID : SkipBlockID) (reader : Scalar) (w : World) (sg : seq byte) :
  schnorr_Sign reader dataID = inr sg ->
  ReadRequest ocs dataID reader w =
    (match (onRead svc (pick (Roster_of ocs) w)
                   (mkReadRequest (mkRead dataID (mkDarcSignature sg))
                                  (Genesis ocs)) (nodes w)).1 with
     | inl cerr => (None, Some cerr)
     | inr reply => (RR_SB reply, None)
     end,
     mkWorld (rcons (wire w)
                    (pick (Roster_of ocs) w,
                     MRead (mkReadRequest (mkRead dataID (mkDarcSignature sg))
                                          (Genesis ocs))))
             (onRead svc (pick (Roster_of ocs) w)
                     (mkReadRequest (mkRead dataID (mkDarcSignature sg))
                                    (Genesis ocs)) (nodes w)).2
             (draws w).+1).
Proof.
rewrite /Ocs.ReadRequest => ->.
rewrite /bind /RandomServerIdentity /SendProtobuf /ret /pick /=.
by case: (onRead _ _ _ _) => [[e|reply] s1].
Qed.

(* DecryptKeyRequest, step by step. *)
Lemma DecryptKeyRequest_run (ocs : SkipChainURL ServerIdentity)
    (readID : SkipBlockID) (reader : Scalar) (w : World) :
  DecryptKeyRequest ocs readID reader w =
    (match (onDecryptKey svc (pick (Roster_of ocs) w)
                         (mkDecryptKeyRequest readID) (nodes w)).1 with
     | inl cerr => ([::], Some cerr)
     | inr reply =>
         match DecodeKey (DK_X reply) (DK_Cs reply) (DK_XhatEnc reply) reader with
         | inl err => ([::], Some (NewClientErrorCode ErrorProtocol
                                     ("couldn't decode sym: " ++ err)))
         | inr sym => (sym, None)
         end
     end,
     mkWorld (rcons (wire w) (pick (Roster_of ocs) w,
                              MDecryptKey (mkDecryptKeyRequest readID)))
             (onDecryptKey svc (pick (Roster_of ocs) w)
                           (mkDecryptKeyRequest readID) (nodes w)).2
             (draws w).+1).
Proof.
rewrite /Ocs.DecryptKeyRequest /bind /RandomServerIdentity /SendProtobuf /ret.
rewrite /pick /=.
case: (onDecryptKey _ _ _ _) => [[e|reply] s1] //=.
by case: (DecodeKey _ _ _ _).
Qed.

(** C7, as the code has it: a DecryptKey call puts one message on the wire,
    which carries the read-block ID and nothing else, addressed to a node
    picked at random from the handle's roster; a reply carries the shared
    public key X, the points Cs and the re-encrypted XhatEnc, and the client
    returns what DecodeKey makes of them with its private key (an
    ErrorProtocol error when DecodeKey fails): it checks no share and
    reconstructs nothing. The world after the call is the same for every
    genesis ID and every private key. *)
Theorem DecryptKeyRequest_sends_read_id (ro : Roster ServerIdentity)
    (g : SkipBlockID) (readID : SkipBlockID) (reader : Scalar) (w : World) :
  let dst := pick ro w in
  let out := onDecryptKey svc dst (mkDecryptKeyRequest readID) (nodes w) in
  DecryptKeyRequest (mkSkipChainURL ro g) readID reader w =
    (match out.1 with
     | inl cerr => ([::], Some cerr)
     | inr reply =>
         match DecodeKey (DK_X reply) (DK_Cs reply) (DK_XhatEnc reply) reader with
         | inl err => ([::], Some (NewClientErrorCode ErrorProtocol
                                     ("couldn't decode sym: " ++ err)))
         | inr sym => (sym, None)
         end
     end,
     mkWorld (rcons (wire w) (dst, MDecryptKey (mkDecryptKeyRequest readID)))
             out.2 (draws w).+1)
  /\
  (forall g' reader',
     (DecryptKeyRequest (mkSkipChainURL ro g') readID reader' w).2 =
     (DecryptKeyRequest (mkSkipChainURL ro g) readID reader w).2).
Proof. by split=> [|g' reader']; rewrite !DecryptKeyRequest_run.
Qed.

End ClientFacts.

(* Ten million and one bytes are refused; ten million are sent on. *)
Lemma WriteRequest_payload_cap_witness :
  EchoWriteRequest (Echo.ocs [::]) (nseq (Z.to_nat 10000001) Byte.x00)
                    [::] [::] tt Echo.w0 =
    ((None, Some (NewClientErrorCode 4000
                    "Cannot store data bigger than 10MB")), Echo.w0)
  /\
  ((exists rest,
      wire (EchoWriteRequest (Echo.ocs [::]) (nseq (Z.to_nat 10000000) Byte.x00)
                             [::] [::] tt Echo.w0).2 = wire Echo.w0 ++
        (pick (fun n => n) (Roster_of (Echo.ocs [::])) Echo.w0,
         MSharedPublic (mkSharedPublicRequest (Genesis (Echo.ocs [::]))))
        :: rest)
   /\
   (forall e,
      (EchoWriteRequest (Echo.ocs [::]) (nseq (Z.to_nat 10000000) Byte.x00)
                        [::] [::] tt Echo.w0).1.2 = Some e ->
      (exists dst rq s, (onSharedPublic Echo.svc dst rq s).1 = inl e) \/
      (exists dst rq s, (onWrite Echo.svc dst rq s).1 = inl e))).
Proof.
split.
- refine (proj1 (@WriteRequest_payload_cap _ _ _ _ _ _ _ _ 4000 Echo.NewWrite
                   Echo.svc (fun n => n) (Echo.ocs [::])
                   (nseq (Z.to_nat 10000001) Byte.x00) [::] [::] tt Echo.w0) _).
  rewrite size_nseq Z2Nat.id; lia.
- refine (proj2 (@WriteRequest_payload_cap _ _ _ _ _ _ _ _ 4000 Echo.NewWrite
                   Echo.svc (fun n => n) (Echo.ocs [::])
                   (nseq (Z.to_nat 10000000) Byte.x00) [::] [::] tt Echo.w0) _).
  rewrite size_nseq Z2Nat.id; lia.
Defined.

(* Two decrypt calls for the same read block, with different genesis IDs
   and different private keys, send the very same single message: it holds
   the read ID, and neither the chain handle nor a key of the requester can
   be read off it. *)
Lemma DecryptKeyRequest_counterexample :
  [/\ wire (EchoDecryptKeyRequest (Echo.ocs [:: Byte.x01]) [:: Byte.x09] 11%Z
                                  Echo.w0).2
        = [:: (Some 0, MDecryptKey (mkDecryptKeyRequest [:: Byte.x09]))],
      wire (EchoDecryptKeyRequest (Echo.ocs [:: Byte.x02]) [:: Byte.x09] 12%Z
                                  Echo.w0).2
        = [:: (Some 0, MDecryptKey (mkDecryptKeyRequest [:: Byte.x09]))],
      Genesis (Echo.ocs [:: Byte.x01]) <> Genesis (Echo.ocs [:: Byte.x02])
    & Echo.pub 11 <> Echo.pub 12].
Proof. by split. Qed.

End OcsFacts.

(* --------------------------------------------------------------------- *)
(* Facts about threshold reconstruction                                  *)
(* --------------------------------------------------------------------- *)
Module ThresholdFacts.
Import GRing.Theory Threshold.
Local Open Scope ring_scope.

Section Scheme.

Variable F : fieldType.
Variable V : lmodType F.
Variable G : V.
Variables (Proof : Type) (check : V -> V -> V -> Proof -> bool).

Local Notation PartialShare := (@PartialShare F V Proof).
Local Notation valid_share := (@valid_share F V G Proof check).
Local Notation point := (@point F).

Lemma lagrange0E (ids : seq F) (i : F) :
  lagrange0 ids i = \prod_(j <- ids | j != i) (j / (j - i)).
Proof.
rewrite /lagrange0; elim: ids => [|j ids IH] /=; first by rewrite big_nil.
by rewrite big_cons IH.
Qed.

Section Interpolation.

Variables (p : {poly F}) (xs : seq F).
Hypothesis xs_uniq : uniq xs.
Hypothesis p_small : (size p <= size xs)%N.

Let ell (i : F) : {poly F} :=
  \prod_(j <- xs | j != i) ((i - j)^-1 *: ('X - j%:P)).

Let ell_at i k : i \in xs -> k \in xs -> (ell i).[k] = (i == k)%:R.
Proof.
move=> ixs kxs; rewrite /ell horner_prod.
case: (eqVneq i k) => [<-|ne].
  rewrite big1 // => j ne; rewrite hornerZ hornerXsubC mulVf //.
  by rewrite subr_eq0 eq_sym.
rewrite -big_filter (bigD1_seq k) /= ?filter_uniq ?mem_filter ?kxs ?andbT //;
  first by rewrite eq_sym.
by rewrite hornerZ hornerXsubC subrr mulr0 mul0r.
Qed.

Let size_ell i : i \in xs -> (size (ell i) <= size xs)%N.
Proof.
move=> ixs; rewrite /ell.
rewrite -big_filter.
have -> : \prod_(j <- [seq j <- xs | j != i]) ((i - j)^-1 *: ('X - j%:P)) =
          (\prod_(j <- [seq j <- xs | j != i]) (i - j)^-1) *:
          \prod_(j <- [seq j <- xs | j != i]) ('X - j%:P).
  elim: [seq _ <- _ | _] => [|j s IH]; first by rewrite !big_nil scale1r.
  by rewrite !big_cons IH -scalerAl -scalerAr scalerA.
apply: leq_trans (size_scale_leq _ _) _.
rewrite size_prod_XsubC size_filter.
have := count_predC (pred1 i) xs.
rewrite count_uniq_mem // ixs => <-.
by rewrite add1n ltnS; apply/eq_leq/eq_count => j /=.
Qed.

Lemma lagrange_at0 : \sum_(i <- xs) lagrange0 xs i * p.[i] = p.[0].
Proof.
pose L : {poly F} := \sum_(i <- xs) p.[i] *: ell i.
have size_L : (size L <= size xs)%N.
  rewrite /L big_seq; elim/big_ind: _ => [|q1 q2 h1 h2|i ixs].
  - by rewrite size_poly0.
  - by apply: leq_trans (size_polyD _ _) _; rewrite geq_max h1 h2.
  - by apply: leq_trans (size_scale_leq _ _) _; apply: size_ell.
have L_at k : k \in xs -> L.[k] = p.[k].
  move=> kxs; rewrite /L horner_sum (bigD1_seq k) //= hornerZ ell_at // eqxx mulr1.
  rewrite big_seq_cond big1 ?addr0 // => i /andP [ixs ne].
  by rewrite hornerZ ell_at // (negbTE ne) mulr0.
have eq : p - L = 0.
  apply: (@roots_geq_poly_eq0 _ _ xs) => //.
    by apply/allP => k kxs; rewrite /root hornerD hornerN L_at // subrr.
  apply: leq_trans (size_polyD _ _) _.
  by rewrite size_polyN geq_max p_small size_L.
have -> : p = L by apply/eqP; rewrite -subr_eq0 eq.
rewrite /L horner_sum big_seq [RHS]big_seq; apply: eq_bigr => i ixs.
rewrite hornerZ !L_at // mulrC; congr (_ * _).
rewrite lagrange0E /ell horner_prod; apply: eq_bigr => j ne.
rewrite hornerZ hornerXsubC sub0r mulrN -mulNr -invrN opprB.
by rewrite mulrC.
Qed.

End Interpolation.

(* What a correctness proof is for: a partial value that checks against the
   commitment s *: G is s applied to the base point it was asked for. *)
Hypothesis check_sound :
  forall (s : F) (P v : V) (pf : Proof), check (s *: G) P v pf -> v = s *: P.

Lemma reconstruct_secret (coefs : seq F) (P : V) (shares : seq PartialShare) :
  (size coefs <= size shares)%N -> uniq (points shares) ->
  all (valid_share coefs P) shares ->
  reconstruct shares = secret coefs *: P.
Proof.
move=> small un ok.
have -> : reconstruct shares =
    \sum_(sh <- shares)
       lagrange0 (points shares) (point (NodeID sh)) *: PartialValue sh.
  rewrite /reconstruct; move: (points shares) => ids.
  by elim: shares {small un ok} => [|sh l IH] /=; rewrite ?big_nil ?big_cons ?IH.
have -> : \sum_(sh <- shares)
             lagrange0 (points shares) (point (NodeID sh)) *: PartialValue sh =
          \sum_(sh <- shares)
             (lagrange0 (points shares) (point (NodeID sh)) *
              (Poly coefs).[point (NodeID sh)]) *: P.
  move: (points shares) => ids.
  elim: shares ok {small un} => [|sh l IH] /=; first by rewrite !big_nil.
  rewrite !big_cons => /andP [/check_sound -> /IH ->].
  by rewrite scalerA /share horner_Poly.
rewrite -scaler_suml /secret -horner_Poly.
have sz : (size (Poly coefs) <= size (points shares))%N.
  by rewrite /points size_map; apply: leq_trans (size_Poly _) small.
by rewrite -(lagrange_at0 un sz) /points big_map.
Qed.

(** C2: in a scheme with threshold t (a secret polynomial of degree below
    t), any two lists of exactly t valid shares, each from t different
    nodes, reconstruct the same value for a base point P, whichever nodes
    they come from: both give the shared secret applied to P. *)
Theorem any_t_shares_agree (coefs : seq F) (t : nat) (P : V)
    (sh1 sh2 : seq PartialShare) :
  (size coefs <= t)%N ->
  size sh1 = t -> size sh2 = t ->
  uniq (points sh1) -> uniq (points sh2) ->
  all (valid_share coefs P) sh1 -> all (valid_share coefs P) sh2 ->
  reconstruct sh1 = reconstruct sh2.
Proof.
move=> small s1 s2 u1 u2 v1 v2.
by rewrite !(@reconstruct_secret coefs P) ?s1 ?s2.
Qed.

End Scheme.

(* A deployment over the field of seven elements, with the field itself as
   the group and 1 as its base point: there a commitment is the share, and
   the check of a partial value is a multiplication. *)
Module Toy.

Notation Fq := 'F_7.
Notation Vq := (Fq^o).

Definition check (c P v : Vq) (pf : unit) : bool := v == c * P.

Lemma toy_check_sound (s : Fq) (P v : Vq) (pf : unit) :
  check (s *: (1 : Vq)) P v pf -> v = s *: P.
Proof. by move=> /eqP ->; rewrite -scalerAl mul1r. Qed.

Definition coefs : seq Fq := [:: 3; 2].

Definition sh (i : nat) : PartialShare Vq unit :=
  mkPartialShare i (share coefs i *: (4 : Vq)) tt.

End Toy.

Lemma any_t_shares_agree_witness :
  reconstruct [:: Toy.sh 0; Toy.sh 1] = reconstruct [:: Toy.sh 2; Toy.sh 1].
Proof.
apply: (@any_t_shares_agree _ _ 1 unit Toy.check Toy.toy_check_sound Toy.coefs 2 4).
- by [].
- by [].
- by [].
- by [].
- by [].
- by [].
- by [].
Defined.

End ThresholdFacts.

(* --------------------------------------------------------------------- *)
(* Facts about the service and the round trip through it                 *)
(* --------------------------------------------------------------------- *)
Module ServiceFacts.
Import GRing.Theory Threshold Ocs Service.
Local Open Scope ring_scope.

Lemma index_of_blockID n : index_of (blockID n) = Some n.
Proof.
rewrite /index_of /blockID /=.
have -> // : List.forallb (Byte.eqb Byte.x00) (nseq n Byte.x00) = true.
  by elim: n => [|n IH].
by rewrite size_nseq.
Qed.

Section Deployment.

Variable F : fieldType.
Variable V : lmodType F.
Variable G : V.
Variables (Proof : Type) (check : V -> V -> V -> Proof -> bool).
Variable embed : seq byte -> seq V.
Variable unembed : seq V -> string + seq byte.
Variable signer_of : seq byte -> seq byte -> option V.
Variables (ErrorParameter ErrorProtocol ErrorPolicy ErrorLedger ErrorShares : Z).
Variable digest : nat -> nat -> seq (string * Expr V) -> seq byte.
Variables (coefs : seq F) (t n : nat).
Variable answer : nat -> V -> option (PartialShare V Proof).
Variable r : F.
Variable sign : F -> seq byte -> string + seq byte.
Variable rnd : nat -> nat.

Local Notation State := (State V).
Local Notation Darc := (Darc V).
Local Notation Block := (Block V).
Local Notation PolicyViolation := (PolicyViolation ErrorPolicy).
Local Notation latest := (latest signer_of digest).
Local Notation onRead :=
  (@onRead F V signer_of ErrorPolicy ErrorLedger digest).
Local Notation svc :=
  (service G check signer_of ErrorParameter ErrorPolicy ErrorLedger ErrorShares
           digest coefs t n answer).
Local Notation World := (World nat Darc (seq byte) (V * seq V) State).
Local Notation ReadRequest :=
  (Ocs.ReadRequest ErrorParameter (fun sg : seq byte => sg) sign svc rnd).

Lemma fetch_append (s : State) (b : Block) :
  fetch (append s b).2 (Hash (append s b).1) = Some b.
Proof.
rewrite /fetch /append [Hash _]/= index_of_blockID /= size_rcons ltnSn.
by rewrite -cats1 drop_size_cat.
Qed.

Lemma fetch_append_old (s : State) (b : Block) (id : SkipBlockID) (b' : Block) :
  fetch s id = Some b' -> fetch (append s b).2 id = Some b'.
Proof.
rewrite /fetch /append /=; case: (index_of id) => [i|] //.
case: ltnP => // lt; rewrite size_rcons ltnS (ltnW lt).
by rewrite -cats1 drop_cat lt; case: (drop i _).
Qed.

(* The walk along evolution edges never stops for lack of fuel: a step goes
   to a darc of the list with a larger version. *)
Local Notation lineage := (lineage signer_of digest).
Local Notation step cur :=
  (fun d : Darc => if PrevDarcSignature d is Some sg
                   then evolves signer_of digest cur d sg else false).

Lemma step_version (cur d : Darc) : step cur d -> Version d = (Version cur).+1.
Proof.
rewrite /= /evolves; case: (PrevDarcSignature d) => // sg.
by case/and3P=> _ /eqP-> _.
Qed.

Lemma count_lt (T : Type) (p q st : pred T) (ds : seq T) (x : T) (l : seq T) :
  [seq d <- ds | st d] = x :: l ->
  (forall d, q d -> p d) -> (forall d, st d -> p d && ~~ q d) ->
  (count q ds < count p ds)%N.
Proof.
move=> + qp stp; elim: ds => [|d ds IH] //=.
case E: (st d) => [|] fl.
  have /andP [-> /negbTE->] := stp _ E.
  by rewrite add0n add1n ltnS; apply: sub_count.
have {}IH := IH fl.
case Q: (q d); first by rewrite (qp _ Q) !add1n ltnS.
by rewrite add0n; apply: leq_trans IH (leq_addl _ _).
Qed.

Lemma filter_head (T : Type) (st : pred T) (ds : seq T) (x : T) (l : seq T) :
  [seq d <- ds | st d] = x :: l -> st x.
Proof.
elim: ds => [|d ds IH] //=; case E: (st d) => //.
by case=> <-.
Qed.

Lemma lineage_stable (ds : seq Darc) (f : nat) (cur : Darc) :
  (count (fun d => Version cur < Version d)%N ds <= f)%N ->
  lineage f ds cur = lineage f.+1 ds cur.
Proof.
elim: f cur => [|f IH] cur le.
  rewrite /=; case E: [seq d <- ds | step cur d] => [|next l] //.
  have := @count_lt _ (fun d => Version cur < Version d)%N pred0 _ _ _ _ E.
  rewrite count_pred0 ltnNge le => H.
  suff: false by [].
  by apply: H => // d /step_version ->; rewrite ltnSn.
rewrite [LHS]/= [RHS]/=.
case E: [seq d <- ds | step cur d] => [|next l] //.
congr (_ :: _); apply: IH.
have vn := step_version (filter_head E).
rewrite -ltnS; apply: leq_trans le.
apply: (count_lt E) => d.
- by rewrite vn => /ltnW.
- by move=> /step_version ->; rewrite vn ltnSn ltnn.
Qed.

Lemma lineage_fuel (ds : seq Darc) (f k : nat) (cur : Darc) :
  (size ds <= f)%N -> lineage (f + k) ds cur = lineage f ds cur.
Proof.
move=> le; elim: k => [|k IH]; first by rewrite addn0.
rewrite addnS -lineage_stable //.
apply: leq_trans (count_size _ _) _.
by apply: leq_trans le (leq_addr _ _).
Qed.

Lemma darcs_append (s : State) (b : Block) :
  (if b is BDarc _ then false else true) ->
  darcs (append s b).2 = darcs s.
Proof.
by rewrite /darcs /append /= -cats1 pmap_cat; case: b => //= *; rewrite cats0.
Qed.

Lemma latest_append (s : State) (b : Block) (base : Darc) :
  (if b is BDarc _ then false else true) ->
  latest (append s b).2 base = latest s base.
Proof.
move=> nb; rewrite /Service.latest /Resolve darcs_append //.
rewrite /append /= size_rcons -addn1 lineage_fuel //.
by rewrite /darcs size_pmap count_size.
Qed.

(* The read handler of the model gates on the policy, as section 4.3 asks:
   a read request whose signature verifies under an identity that the "read"
   rule of the resolved policy does not authorize is answered with
   PolicyViolation and leaves the ledger as it was; whenever a read request
   does change the ledger, its signer is authorized by that rule and the
   change is one appended read block. Seen from the caller: ReadRequest by
   such a reader returns no block and the PolicyViolation error, and the
   service state is untouched. *)
Lemma read_gated_by_policy (dst : option nat)
    (rr : ReadRequest_msg (seq byte)) (s : State) :
  [/\ forall wr id,
        fetch_write s (Read_DataID (RR_Read rr)) = Some wr ->
        signer_of (Read_DataID (RR_Read rr)) (Read_Signature (RR_Read rr))
          = Some id ->
        Authorize (latest s (PolicyRef wr)) "read" id = false ->
        onRead dst rr s = (inl PolicyViolation, s),
      ledger (onRead dst rr s).2 <> ledger s ->
      exists wr id,
        [/\ fetch_write s (Read_DataID (RR_Read rr)) = Some wr,
            signer_of (Read_DataID (RR_Read rr)) (Read_Signature (RR_Read rr))
              = Some id,
            Authorize (latest s (PolicyRef wr)) "read" id
          & ledger (onRead dst rr s).2 =
            rcons (ledger s)
                  (BRead (mkReadRecord (Read_DataID (RR_Read rr)) id
                                       (Read_Signature (RR_Read rr))))]
    & forall (ocs : SkipChainURL nat) (reader : F) (w : World) wr id,
        sign reader (Read_DataID (RR_Read rr))
          = inr (Read_Signature (RR_Read rr)) ->
        fetch_write (nodes w) (Read_DataID (RR_Read rr)) = Some wr ->
        signer_of (Read_DataID (RR_Read rr)) (Read_Signature (RR_Read rr))
          = Some id ->
        Authorize (latest (nodes w) (PolicyRef wr)) "read" id = false ->
        (ReadRequest ocs (Read_DataID (RR_Read rr)) reader w).1
          = (None, Some PolicyViolation) /\
        nodes (ReadRequest ocs (Read_DataID (RR_Read rr)) reader w).2 = nodes w].
Proof.
split=> [wr id fw so na||ocs reader w wr id sg fw so na].
- by rewrite /Service.onRead fw so na.
- rewrite /Service.onRead.
  case: (fetch_write _ _) => [wr|] //=.
  case: (signer_of _ _) => [id|] //=.
  case E: (Authorize _ _ _) => //= _.
  by exists wr, id.
- rewrite (OcsFacts.ReadRequest_run _ _ _ _ _ _ sg) /=.
  by rewrite /Service.onRead /= fw so na.
Qed.

(* What the aggregation keeps: shares that check, from distinct nodes of
   the roster, in roster order. *)
Local Notation gather := (gather G check coefs n answer).
Local Notation valid_share := (valid_share G check coefs).

Lemma gather_ok (P : V) :
  all (valid_share P) (gather P) /\
  subseq [seq NodeID sh | sh <- gather P] (iota 0 n).
Proof.
rewrite /Service.gather; elim: (iota 0 n) => [|i l [IH1 IH2]] //=.
case: (answer i P) => [sh|] /=; last first.
  by split=> //; apply: subseq_trans IH2 (subseq_cons _ _).
case: eqP => [e|_] /=; last first.
  by split=> //; apply: subseq_trans IH2 (subseq_cons _ _).
case ok: (Threshold.valid_share _ _ _ _ _) => /=; last first.
  by split=> //; apply: subseq_trans IH2 (subseq_cons _ _).
by rewrite ok e eqxx.
Qed.

Lemma take_gather_secret (P : V) :
  (forall s P v pf, check (s *: G) P v pf -> v = s *: P) ->
  (size coefs <= t)%N -> uniq [seq point F i | i <- iota 0 n] ->
  (t <= size (gather P))%N ->
  reconstruct (take t (gather P)) = secret coefs *: P.
Proof.
move=> sound small un enough.
have [ok ids] := gather_ok P.
apply: (ThresholdFacts.reconstruct_secret sound).
- by rewrite size_takel.
- rewrite /points.
  have -> : [seq point F (NodeID sh) | sh <- take t (gather P)] =
            [seq point F i | i <- [seq NodeID sh | sh <- take t (gather P)]].
    by rewrite -map_comp.
  apply: subseq_uniq un; apply: map_subseq.
  by apply: subseq_trans ids; rewrite map_take; apply: take_subseq.
- by move: ok; rewrite -{1}(cat_take_drop t (gather P)) all_cat => /andP [].
Qed.

(* The suite's symmetric cipher, used by the caller around the API. *)
Variable Seal : seq byte -> seq byte -> seq byte.
Variable Open : seq byte -> seq byte -> option (seq byte).

Local Notation WriteRequest :=
  (Ocs.WriteRequest ErrorParameter (NewWrite G embed r) svc rnd).
Local Notation DecryptKeyRequest :=
  (Ocs.DecryptKeyRequest ErrorProtocol (DecodeKey unembed) svc rnd).

(** C1: a caller seals data d under a symmetric key k and writes it with
    k, a reader whom the resolved policy authorizes asks to read and then to
    decrypt: the write and the read are anchored, the decrypt call returns
    exactly k, and opening the stored ciphertext with k gives d back. The
    premises are the contracts of the libraries (point embedding, cipher,
    signatures, correctness proofs), the t-out-of-n scheme, the payload cap,
    the reader's right, and t valid shares arriving. *)
Theorem write_read_decrypt_round_trip (ocs : SkipChainURL nat)
    (d k sig : seq byte) (acl : Darc) (xc : F) (w0 : World) :
  (forall key, unembed (embed key) = inr key) ->
  (forall dat key, Open (Seal dat key) key = Some dat) ->
  (forall x m, exists2 sg, sign x m = inr sg & signer_of m sg = Some (x *: G)) ->
  (forall s P v pf, check (s *: G) P v pf -> v = s *: P) ->
  (size coefs <= t)%N -> uniq [seq point F i | i <- iota 0 n] ->
  (Z.of_nat (size (Seal d k)) <= 10000000)%Z ->
  Authorize (latest (nodes w0) acl) "read" (xc *: G) ->
  (t <= size (gather (r *: G + xc *: G)))%N ->
  exists sbW sbR w1 w2 w3 wr,
    [/\ WriteRequest ocs (Seal d k) k sig acl w0 = ((Some sbW, None), w1),
        ReadRequest ocs (Hash sbW) xc w1 = ((Some sbR, None), w2),
        DecryptKeyRequest ocs (Hash sbR) xc w2 = ((k, None), w3),
        fetch_write (nodes w3) (Hash sbW) = Some wr
      & Open (CiphertextRef wr) k = Some d].
Proof.
move=> emb cipher sigs sound small un cap auth enough.
have nbig : too_big (Seal d k) = false by rewrite /too_big; lia.
pose wrec := mkWriteRecord (Seal d k)
               (r *: G, [seq r *: X G coefs + K | K <- embed k]) acl sig.
pose a1 := append (nodes w0) (BWrite wrec).
have [sg sgE sgS] := sigs xc (Hash a1.1).
pose rrec := mkReadRecord (Hash a1.1) (xc *: G) sg.
pose a2 := append a1.2 (BRead rrec).
have W : WriteRequest ocs (Seal d k) k sig acl w0 =
         ((Some a1.1, None),
          mkWorld (rcons (rcons (wire w0)
                     (OcsFacts.pick rnd (Roster_of ocs) w0,
                      MSharedPublic (mkSharedPublicRequest (Genesis ocs))))
                     (OcsFacts.pick rnd (Roster_of ocs)
                        (mkWorld (wire w0) (nodes w0) (draws w0).+1),
                      MWrite (mkWriteRequest
                                (mkWrite (EncryptedKey
                                   (NewWrite G embed r (Genesis ocs) (X G coefs) acl k))
                                   (Seal d k)) acl (Genesis ocs) sig)))
                  a1.2 (draws w0).+2).
  rewrite /Ocs.WriteRequest nbig.
  rewrite /bind /RandomServerIdentity /SendProtobuf /ret /OcsFacts.pick /=.
  by rewrite /Service.onWrite /= nbig.
have fw1 : fetch_write a1.2 (Hash a1.1) = Some wrec.
  by rewrite /fetch_write fetch_append.
have auth1 : Authorize (latest a1.2 acl) "read" (xc *: G).
  by rewrite latest_append.
have R w : nodes w = a1.2 ->
    ReadRequest ocs (Hash a1.1) xc w =
    ((Some a2.1, None),
     mkWorld (rcons (wire w)
                (OcsFacts.pick rnd (Roster_of ocs) w,
                 MRead (mkReadRequest (mkRead (Hash a1.1) sg) (Genesis ocs))))
             a2.2 (draws w).+1).
  move=> nw; rewrite (OcsFacts.ReadRequest_run _ _ _ _ _ _ sgE) /=.
  by rewrite /Service.onRead /= nw fw1 sgS auth1.
have fr2 : fetch_read a2.2 (Hash a2.1) = Some rrec.
  by rewrite /fetch_read fetch_append.
have fw2 : fetch_write a2.2 (Hash a1.1) = Some wrec.
  rewrite /fetch_write (@fetch_append_old _ _ _ (BWrite wrec)) //.
  exact: fetch_append.
have auth2 : Authorize (latest a2.2 acl) "read" (xc *: G).
  by rewrite latest_append.
have D w : nodes w = a2.2 ->
    DecryptKeyRequest ocs (Hash a2.1) xc w =
    ((k, None),
     mkWorld (rcons (wire w)
                (OcsFacts.pick rnd (Roster_of ocs) w,
                 MDecryptKey (mkDecryptKeyRequest (Hash a2.1))))
             a2.2 (draws w).+1).
  move=> nw; rewrite OcsFacts.DecryptKeyRequest_run /=.
  rewrite /Service.onDecryptKey /= nw fr2 /= fw2 /= sgS eqxx auth2 /=.
  rewrite size_takel // ltnn /= take_gather_secret //.
  rewrite /DecodeKey /= -map_comp.
  have -> : [seq ((fun C => C - (secret coefs *: (r *: G + xc *: G)
                                  - xc *: X G coefs)) \o
                  (fun K => r *: X G coefs + K)) i | i <- embed k] = embed k.
    rewrite -[RHS]map_id; apply: eq_map => K /=.
    rewrite /X scalerDr !scalerA [xc * _]mulrC addrK [r * _]mulrC.
    by rewrite addrC addKr.
  by rewrite emb.
exists a1.1, a2.1; do 3 eexists; exists wrec; split.
- exact: W.
- exact: R.
- exact: D.
- exact: fw2.
- exact: cipher.
Qed.

End Deployment.

(* A deployment to run the calls on: scalars modulo 257, the field itself
   as the group with base point 1 (a commitment is then the share itself and
   a partial value is checked by a multiplication), three nodes with
   threshold two, a signature that names its signer, and a cipher that
   prefixes the key. *)
Module ToyNet.

Notation Fq := 'F_257.
Notation Vq := (Fq^o).

Definition G : Vq := 1.

Definition check (c P v : Vq) (pf : unit) : bool := v == c * P.

Definition embed (key : seq byte) : seq Vq :=
  [seq (Byte.to_nat b)%:R | b <- key].

Fixpoint unembed (ps : seq Vq) : string + seq byte :=
  match ps with
  | [::] => inr [::]
  | p :: ps' =>
      match Byte.of_nat (p : Fq), unembed ps' with
      | Some b, inr l => inr (b :: l)
      | _, _ => inl "not a key"%string
      end
  end.

Definition sign (x : Fq) (m : seq byte) : string + seq byte :=
  inr (nseq x Byte.x01).

Definition signer_of (m sg : seq byte) : option Vq := Some ((size sg)%:R).

Definition digest (b v : nat) (rules : seq (string * Expr Vq)) : seq byte := [::].

Definition coefs : seq Fq := [:: 3; 2].

Definition answer (i : nat) (P : Vq) : option (PartialShare Vq unit) :=
  Some (mkPartialShare i (share coefs i *: P) tt).

Definition Seal (d k : seq byte) : seq byte := k ++ d.

Definition Open (e k : seq byte) : option (seq byte) := Some (drop (size k) e).

Definition acl : Darc Vq :=
  mkDarc 0 0 [:: ("read"%string, Ident (11 *: G))] None.

Definition ocs : SkipChainURL nat := mkSkipChainURL (mkRoster [:: 0; 1; 2]%N) [::].

Definition w0 : World nat (Darc Vq) (seq byte) (Vq * seq Vq) (State Vq) :=
  mkWorld [::] (mkState [::]) 0.

Lemma embedK (key : seq byte) : unembed (embed key) = inr key.
Proof.
elim: key => [|b key IH] //=; rewrite IH.
have -> : ((Byte.to_nat b)%:R : Fq) = Byte.to_nat b :> nat.
  rewrite val_Fp_nat // modn_small //.
  by have /leP := Byte.to_nat_bounded b; rewrite -ltnS => /leq_trans; apply.
by rewrite Byte.of_to_nat.
Qed.

Lemma cipherK (d k : seq byte) : Open (Seal d k) k = Some d.
Proof. by rewrite /Open /Seal drop_size_cat. Qed.

Lemma signK (x : Fq) (m : seq byte) :
  exists2 sg, sign x m = inr sg & signer_of m sg = Some (x *: G).
Proof.
exists (nseq x Byte.x01) => //.
by rewrite /signer_of size_nseq natr_Zp /G -[x *: 1]/(x * 1) mulr1.
Qed.

Lemma net_check_sound (s : Fq) (P v : Vq) (pf : unit) :
  check (s *: G) P v pf -> v = s *: P.
Proof. by move=> /eqP ->; rewrite -scalerAl mul1r. Qed.

End ToyNet.

Local Notation toy_svc :=
  (service ToyNet.G ToyNet.check ToyNet.signer_of 4000%Z 4002%Z 4003%Z 4004%Z
           ToyNet.digest ToyNet.coefs 2 3 ToyNet.answer).
Local Notation toy_WriteRequest :=
  (Ocs.WriteRequest 4000%Z (NewWrite ToyNet.G ToyNet.embed 5) toy_svc (fun i => i)).
Local Notation toy_ReadRequest :=
  (Ocs.ReadRequest 4000%Z (fun sg : seq byte => sg) ToyNet.sign toy_svc
                   (fun i => i)).
Local Notation toy_DecryptKeyRequest :=
  (Ocs.DecryptKeyRequest 4001%Z (DecodeKey ToyNet.unembed) toy_svc (fun i => i)).

(* The round trip of the key [1; 2] and the data [9], read by the holder of
   the private scalar 11. *)
Lemma write_read_decrypt_round_trip_witness :
  exists sbW sbR w1 w2 w3 wr,
    [/\ toy_WriteRequest ToyNet.ocs
          (ToyNet.Seal [:: Byte.x09] [:: Byte.x01; Byte.x02])
          [:: Byte.x01; Byte.x02] [::] ToyNet.acl ToyNet.w0
          = ((Some sbW, None), w1),
        toy_ReadRequest ToyNet.ocs (Hash sbW) 11 w1 = ((Some sbR, None), w2),
        toy_DecryptKeyRequest ToyNet.ocs (Hash sbR) 11 w2
          = (([:: Byte.x01; Byte.x02], None), w3),
        fetch_write (nodes w3) (Hash sbW) = Some wr
      & ToyNet.Open (CiphertextRef wr) [:: Byte.x01; Byte.x02]
          = Some [:: Byte.x09]].
Proof.
apply: (@write_read_decrypt_round_trip _ _ ToyNet.G unit ToyNet.check
          ToyNet.embed ToyNet.unembed ToyNet.signer_of 4000%Z 4001%Z 4002%Z
          4003%Z 4004%Z ToyNet.digest ToyNet.coefs 2 3 ToyNet.answer 5
          ToyNet.sign (fun i => i) ToyNet.Seal ToyNet.Open ToyNet.ocs
          [:: Byte.x09] [:: Byte.x01; Byte.x02] [::] ToyNet.acl 11 ToyNet.w0).
- exact: ToyNet.embedK.
- exact: ToyNet.cipherK.
- exact: ToyNet.signK.
- exact: ToyNet.net_check_sound.
- by [].
- by [].
- by [].
- by [].
- by [].
Defined.

(* A read of block 0 signed by the holder of the scalar 12, whom the policy
   does not name, is refused and the ledger keeps its single block. *)
Example read_refused :
  onRead ToyNet.signer_of 4002%Z 4003%Z ToyNet.digest None
         (mkReadRequest (mkRead (blockID 0) (nseq 12 Byte.x01)) [::])
         (mkState [:: BWrite (mkWriteRecord [:: Byte.x09] (ToyNet.G, [::])
                                            ToyNet.acl [::])])
  = (inl (PolicyViolation 4002%Z),
     mkState [:: BWrite (mkWriteRecord [:: Byte.x09] (ToyNet.G, [::])
                                       ToyNet.acl [::])]).
Proof.
have [H _ _] :=
  @read_gated_by_policy _ _ ToyNet.G unit ToyNet.check ToyNet.signer_of
     4000%Z 4002%Z 4003%Z 4004%Z ToyNet.digest ToyNet.coefs 2 3 ToyNet.answer
     ToyNet.sign (fun i => i) None
     (mkReadRequest (mkRead (blockID 0) (nseq 12 Byte.x01)) [::])
     (mkState [:: BWrite (mkWriteRecord [:: Byte.x09] (ToyNet.G, [::])
                                        ToyNet.acl [::])]).
apply: (H (mkWriteRecord [:: Byte.x09] (ToyNet.G, [::]) ToyNet.acl [::]) 12).
- by [].
- by [].
- by [].
Qed.

(* The scenario of section 8 in small: a roster of five with threshold
   three. After a write and an authorized read, the decrypt call fails with
   InsufficientShares when two nodes answer and returns the key when three
   do. *)
Definition honest (i : nat) (P : ToyNet.Vq) : PartialShare ToyNet.Vq unit :=
  mkPartialShare i (share [:: 3; 2; 6] i *: P) tt.

Definition two_up (i : nat) (P : ToyNet.Vq) : option (PartialShare ToyNet.Vq unit) :=
  if (i < 2)%N then Some (honest i P) else None.

Definition three_up (i : nat) (P : ToyNet.Vq) : option (PartialShare ToyNet.Vq unit) :=
  if (1 < i)%N then Some (honest i P) else None.

Definition scenario (answer : nat -> ToyNet.Vq -> option (PartialShare ToyNet.Vq unit))
    : seq byte * option ClientError :=
  let svc := service ToyNet.G ToyNet.check ToyNet.signer_of 4000%Z 4002%Z
                     4003%Z 4004%Z ToyNet.digest [:: 3; 2; 6] 3 5 answer in
  let write := Ocs.WriteRequest 4000%Z (NewWrite ToyNet.G ToyNet.embed 5)
                                svc (fun i => i) in
  let read := Ocs.ReadRequest 4000%Z (fun sg : seq byte => sg) ToyNet.sign
                              svc (fun i => i) in
  let decrypt := Ocs.DecryptKeyRequest 4001%Z (DecodeKey ToyNet.unembed)
                                       svc (fun i => i) in
  let: (_, w1) := write ToyNet.ocs [:: Byte.x09] [:: Byte.x01; Byte.x02] [::]
                        ToyNet.acl ToyNet.w0 in
  let: (_, w2) := read ToyNet.ocs (blockID 0) 11 w1 in
  (decrypt ToyNet.ocs (blockID 1) 11 w2).1.

Example scenario_two_nodes :
  scenario two_up = ([::], Some (InsufficientShares 4004%Z)).
Proof. by []. Qed.

Example scenario_three_nodes :
  scenario three_up = ([:: Byte.x01; Byte.x02], None).
Proof. by []. Qed.

End ServiceFacts.

(* --------------------------------------------------------------------- *)
(* Facts about what the messages carry of the symmetric key              *)
(* --------------------------------------------------------------------- *)
Module SecrecyFacts.
Import GRing.Theory Threshold Ocs Service Transcript Secrecy.
Local Open Scope ring_scope.

Section Deployment.

Variable F : fieldType.
Variable V : lmodType F.
Variable G : V.
Variables (Proof : Type) (check : V -> V -> V -> Proof -> bool).
Variable embed : seq byte -> seq V.
Variable unembed : seq V -> string + seq byte.
Variable signer_of : seq byte -> seq byte -> option V.
Variables (ErrorParameter ErrorProtocol ErrorPolicy ErrorLedger ErrorShares : Z).
Variable digest : nat -> nat -> seq (string * Expr V) -> seq byte.
Variables (coefs : seq F) (t n : nat).
Variable answer : nat -> V -> option (PartialShare V Proof).
Variable r : F.
Variable sign : F -> seq byte -> string + seq byte.
Variable rnd : nat -> nat.

Local Notation State := (State V).
Local Notation Darc := (Darc V).
Local Notation Block := (Block V).
Local Notation latest := (latest signer_of digest).
Local Notation svc :=
  (service G check signer_of ErrorParameter ErrorPolicy ErrorLedger ErrorShares
           digest coefs t n answer).
Local Notation World := (World nat Darc (seq byte) (V * seq V) State).
Local Notation WriteRequest :=
  (Ocs.WriteRequest ErrorParameter (NewWrite G embed r) svc rnd).
Local Notation ReadRequest :=
  (Ocs.ReadRequest ErrorParameter (fun sg : seq byte => sg) sign svc rnd).
Local Notation DecryptKeyRequest :=
  (Ocs.DecryptKeyRequest ErrorProtocol (DecodeKey unembed) svc rnd).
Local Notation sealed := (sealed G embed coefs r).
Local Notation hide := (hide G embed coefs r).

Section Observer.

Variable f : seq V -> seq V.

Lemma fetch_view (s : State) (id : SkipBlockID) :
  fetch (view_state f s) id = omap (view_block f) (fetch s id).
Proof.
rewrite /fetch /=; case: (index_of id) => [i|] //.
rewrite size_map; case: ltnP => // _.
by rewrite -map_drop; case: (drop i _).
Qed.

Lemma fetch_write_view (s : State) (id : SkipBlockID) :
  fetch_write (view_state f s) id = omap (view_record f) (fetch_write s id).
Proof. by rewrite /fetch_write fetch_view; case: (fetch s id) => [[]|]. Qed.

Lemma fetch_read_view (s : State) (id : SkipBlockID) :
  fetch_read (view_state f s) id = fetch_read s id.
Proof. by rewrite /fetch_read fetch_view; case: (fetch s id) => [[]|]. Qed.

Lemma darcs_view (s : State) : darcs (view_state f s) = darcs s.
Proof.
rewrite /darcs /=; elim: (ledger s) => [|[w|rd|d] l IH] //=.
by rewrite IH.
Qed.

Lemma latest_view (s : State) (base : Darc) :
  latest (view_state f s) base = latest s base.
Proof. by rewrite /Service.latest /Resolve darcs_view /= size_map. Qed.

Lemma reads_from_view (l : seq Block) :
  reads_from [seq view_block f b | b <- l] = reads_from l.
Proof.
by rewrite /reads_from; elim: l => [|[w|rd|d] l IH] //=; rewrite IH.
Qed.

(* The service handles the points of an encrypted key without looking at
   them: reading them through f before a message is handled gives what
   reading them through f afterwards gives. *)
Lemma handle_view (dst : option nat) (m : Request V) (s : State) :
  handle svc dst (view_msg f m) (view_state f s) =
    (view_reply f (handle svc dst m s).1,
     view_state f (handle svc dst m s).2).
Proof.
case: m => [q|q|q|q|q|q] /=.
- by [].
- rewrite /Service.onWrite /=; case: (too_big _) => //.
  by rewrite /append /view_sb /view_state /= size_map map_rcons.
- rewrite /Service.onRead /= fetch_write_view.
  case: (fetch_write s _) => [w|] //=.
  case: (signer_of _ _) => [id|] //=.
  rewrite latest_view; case: (Authorize _ _ _) => //.
  by rewrite /append /view_sb /view_state /= size_map map_rcons.
- rewrite /Service.onDecryptKey /= fetch_read_view.
  case: (fetch_read s _) => [rd|] //=.
  rewrite fetch_write_view; case: (fetch_write s _) => [w|] //=.
  rewrite latest_view; case: (_ && _) => //.
  by case: (_ < _)%N.
- rewrite /Service.onGetReadRequests /= fetch_view.
  case: (fetch s _) => [b|] //=.
  case: (index_of _) => [i|] //=.
  case: (_ =? _)%Z.
    by case: b => [w|rd|d] //=; rewrite reads_from_view.
  by rewrite -map_drop reads_from_view.
- rewrite /Service.onUpdateDarc /= darcs_view.
  case: [seq c <- _ | _] => [|genesis l].
    case: (_ == _) => //.
    by rewrite /append /view_sb /view_state /= size_map map_rcons.
  rewrite latest_view; case: (PrevDarcSignature _) => [sg|] //.
  case: (Evolve _ _ _ _ _) => // _.
  by rewrite /append /view_sb /view_state /= size_map map_rcons.
Qed.

(* Two runs that look alike through f before a message look alike after
   it. *)
Lemma handle_same (dst : option nat) (m1 m2 : Request V) (s1 s2 : State) :
  view_msg f m1 = view_msg f m2 -> view_state f s1 = view_state f s2 ->
  view_reply f (handle svc dst m1 s1).1 =
  view_reply f (handle svc dst m2 s2).1 /\
  view_state f (handle svc dst m1 s1).2 =
  view_state f (handle svc dst m2 s2).2.
Proof.
move=> em es; have := handle_view dst m1 s1.
rewrite em es handle_view => E.
by split; [exact: esym (congr1 fst E) | exact: esym (congr1 snd E)].
Qed.

End Observer.

(* The service invents no encrypted key: what a reply or the ledger holds
   after a message was in the message or in the ledger before. *)
Lemma keys_state_rcons (s : State) (b : Block) :
  keys_state (mkState (rcons (ledger s) b)) = keys_state s ++ keys_block b.
Proof. by rewrite /keys_state /= map_rcons flatten_rcons. Qed.

Lemma fetch_keys (s : State) (id : SkipBlockID) (b : Block) (pts : seq V) :
  fetch s id = Some b -> pts \notin keys_state s -> pts \notin keys_block b.
Proof.
rewrite /fetch; case: (index_of id) => [i|] //; case: ltnP => // _ E.
rewrite /keys_state -(cat_take_drop i (ledger s)) map_cat flatten_cat mem_cat.
move: E; case: (drop i _) => [|b' l] //= [->].
by rewrite mem_cat !negb_or => /andP [_ /andP []].
Qed.

Lemma handle_keys (dst : option nat) (m : Request V) (s : State)
    (pts : seq V) :
  pts \notin keys_msg m -> pts \notin keys_state s ->
  (pts \notin keys_reply (handle svc dst m s).1) &&
  (pts \notin keys_state (handle svc dst m s).2).
Proof.
case: m => [q|q|q|q|q|q] /= inm ins.
- by [].
- rewrite /Service.onWrite /=; case: (too_big _) => //=.
  by rewrite keys_state_rcons mem_cat negb_or ins /= inm.
- rewrite /Service.onRead /=.
  case: (fetch_write s _) => [w|] //=.
  case: (signer_of _ _) => [id|] //=.
  case: (Authorize _ _ _) => //=.
  by rewrite keys_state_rcons cats0.
- rewrite /Service.onDecryptKey /=.
  case: (fetch_read s _) => [rd|] //=.
  rewrite /fetch_write; case E: (fetch s _) => [[w|rd'|d]|] //=.
  case: ((_ == _) && _) => //=; case: (_ < _)%N => //=.
  by rewrite ins andbT; apply: (fetch_keys E ins).
- rewrite /Service.onGetReadRequests /=.
  case: (fetch s _) => [b|] //=.
  case: (index_of _) => [i|] //=.
  case: (_ =? _)%Z => //.
  by case: b => [w|rd|d].
- rewrite /Service.onUpdateDarc /=.
  case: [seq c <- _ | _] => [|genesis l].
    by case: (_ == _) => //=; rewrite keys_state_rcons cats0.
  case: (PrevDarcSignature _) => [sg|] //.
  case: (Evolve _ _ _ _ _) => //= _.
  by rewrite keys_state_rcons cats0.
Qed.

Lemma handles_keys (l : seq (option nat * Request V)) (s : State)
    (pts : seq V) :
  all (fun x => pts \notin keys_msg x.2) l -> pts \notin keys_state s ->
  all (fun a => pts \notin keys_reply a) (handles svc l s).1 &&
  (pts \notin keys_state (handles svc l s).2).
Proof.
elim: l s => [|x l IH] s /=; first by move=> _ ->.
move=> /andP [inx inl] ins.
have /andP [] := handle_keys x.1 inx ins.
case: (handle svc x.1 x.2 s) => a s' /= ina ins'.
have := IH s' inl ins'.
by case: (handles svc l s') => rs s'' /= /andP [-> ->]; rewrite ina.
Qed.

Lemma clear_replayed (A : Type)
    (c : M nat Darc (seq byte) (V * seq V) State A) (w : World) (pts : seq V) :
  replayed svc c w ->
  all (fun x => pts \notin keys_msg x.2) (sent c w) ->
  pts \notin keys_state (nodes w) ->
  clear_of svc pts c w.
Proof.
rewrite /replayed => rp ins inw; rewrite /clear_of ins /received /=.
have -> /= := congr1 (@nodes _ _ _ _ _) rp.
exact: handles_keys.
Qed.

(* The calls, step by step, against the service of the model. *)
Local Notation pick := (OcsFacts.pick rnd).

(* The requests the three calls send. *)
Definition write_msg (ocs : SkipChainURL nat) (encData k sig : seq byte)
    (acl : Darc) : Request V :=
  MWrite (mkWriteRequest (mkWrite (r *: G, sealed k) encData) acl
                         (Genesis ocs) sig).

Definition read_msg (ocs : SkipChainURL nat) (dataID : SkipBlockID)
    (sg : seq byte) : Request V :=
  MRead (mkReadRequest (mkRead dataID sg) (Genesis ocs)).

Definition decrypt_msg (readID : SkipBlockID) : Request V :=
  MDecryptKey (mkDecryptKeyRequest readID).

(* What WriteRequest and ReadRequest return for a reply. *)
Definition block_of (a : Reply V (SkipBlock V) (ReadRecord V))
    : option (SkipBlock V) * option ClientError :=
  match a with
  | AWrite (inl cerr) | ARead (inl cerr) => (None, Some cerr)
  | AWrite (inr reply) => (WR_SB reply, None)
  | ARead (inr reply) => (RR_SB reply, None)
  | _ => (None, None)
  end.

Lemma block_of_view (f : seq V -> seq V) (a : Reply V (SkipBlock V) (ReadRecord V)) :
  view_result f (block_of a) = block_of (view_reply f a).
Proof. by case: a => [[e|rep]|[e|rep]|[e|rep]|[e|rep]|[e|rep]|[e|rep]]. Qed.

Lemma drop_size_rcons (T : Type) (l : seq T) (x : T) :
  drop (size l) (rcons l x) = [:: x].
Proof. by rewrite -cats1 drop_size_cat. Qed.

Lemma drop_size_rcons2 (T : Type) (l : seq T) (x y : T) :
  drop (size l) (rcons (rcons l x) y) = [:: x; y].
Proof. by rewrite -!cats1 -catA drop_size_cat. Qed.

Lemma WriteRequest_big (ocs : SkipChainURL nat) (encData k sig : seq byte)
    (acl : Darc) (w : World) :
  too_big encData ->
  WriteRequest ocs encData k sig acl w =
    ((None, Some (NewClientErrorCode ErrorParameter
                    "Cannot store data bigger than 10MB")), w).
Proof. by rewrite /Ocs.WriteRequest => ->. Qed.

Lemma WriteRequest_small (ocs : SkipChainURL nat) (encData k sig : seq byte)
    (acl : Darc) (w : World) :
  too_big encData = false ->
  WriteRequest ocs encData k sig acl w =
    (block_of (handle svc (pick (Roster_of ocs) (after_draw w))
                 (write_msg ocs encData k sig acl) (nodes w)).1,
     mkWorld (rcons (rcons (wire w)
                       (pick (Roster_of ocs) w,
                        MSharedPublic (mkSharedPublicRequest (Genesis ocs))))
                    (pick (Roster_of ocs) (after_draw w),
                     write_msg ocs encData k sig acl))
             (handle svc (pick (Roster_of ocs) (after_draw w))
                (write_msg ocs encData k sig acl) (nodes w)).2
             (draws w).+2).
Proof.
move=> small; rewrite /Ocs.WriteRequest small.
rewrite /bind /RandomServerIdentity /SendProtobuf /ret /OcsFacts.pick /=.
by rewrite /Service.onWrite /= small.
Qed.

Lemma ReadRequest_failed (ocs : SkipChainURL nat) (dataID : SkipBlockID)
    (xc : F) (w : World) (err : string) :
  sign xc dataID = inl err ->
  ReadRequest ocs dataID xc w =
    ((None, Some (NewClientErrorCode ErrorParameter err)), w).
Proof. by rewrite /Ocs.ReadRequest => ->. Qed.

Lemma ReadRequest_signed (ocs : SkipChainURL nat) (dataID : SkipBlockID)
    (xc : F) (w : World) (sg : seq byte) :
  sign xc dataID = inr sg ->
  ReadRequest ocs dataID xc w =
    (block_of (handle svc (pick (Roster_of ocs) w)
                 (read_msg ocs dataID sg) (nodes w)).1,
     mkWorld (rcons (wire w) (pick (Roster_of ocs) w, read_msg ocs dataID sg))
             (handle svc (pick (Roster_of ocs) w)
                (read_msg ocs dataID sg) (nodes w)).2
             (draws w).+1).
Proof.
move=> sg_ok; rewrite (OcsFacts.ReadRequest_run _ _ _ _ _ _ sg_ok) /=.
by case: (Service.onRead _ _ _ _ _ _ _) => [[e|reply] s1].
Qed.

Lemma DecryptKeyRequest_handled (ocs : SkipChainURL nat) (readID : SkipBlockID)
    (xc : F) (w : World) :
  DecryptKeyRequest ocs readID xc w =
    (match (handle svc (pick (Roster_of ocs) w)
              (decrypt_msg readID) (nodes w)).1 with
     | ADecryptKey (inl cerr) => ([::], Some cerr)
     | ADecryptKey (inr reply) =>
         match DecodeKey unembed (DK_X reply) (DK_Cs reply) (DK_XhatEnc reply) xc
         with
         | inl err => ([::], Some (NewClientErrorCode ErrorProtocol
                                     ("couldn't decode sym: " ++ err)))
         | inr sym => (sym, None)
         end
     | _ => ([::], None)
     end,
     mkWorld (rcons (wire w) (pick (Roster_of ocs) w, decrypt_msg readID))
             (handle svc (pick (Roster_of ocs) w)
                (decrypt_msg readID) (nodes w)).2
             (draws w).+1).
Proof.
rewrite OcsFacts.DecryptKeyRequest_run /=.
by case: (Service.onDecryptKey _ _ _ _ _ _ _ _ _ _ _ _ _ _) => [[e|reply] s1].
Qed.

Local Arguments handle : simpl never.

Lemma handles1 (x : option nat * Request V) (s : State) :
  handles svc [:: x] s =
    ([:: (handle svc x.1 x.2 s).1], (handle svc x.1 x.2 s).2).
Proof. by rewrite /=; case: (handle _ _ _ _). Qed.

Lemma handles_shared (d : option nat) (g : SkipBlockID)
    (y : option nat * Request V) (s : State) :
  handles svc [:: (d, MSharedPublic (mkSharedPublicRequest g)); y] s =
    ([:: ASharedPublic (inr (mkSharedPublicReply (X G coefs)));
         (handle svc y.1 y.2 s).1],
     (handle svc y.1 y.2 s).2).
Proof. by rewrite /=; case: (handle _ _ _ _). Qed.

Section Unwinding.

Variable f : seq V -> seq V.

Lemma view_world_inj (w1 w2 : World) :
  view_world f w1 = view_world f w2 ->
  [/\ [seq (x.1, view_msg f x.2) | x <- wire w1] =
      [seq (x.1, view_msg f x.2) | x <- wire w2],
      view_state f (nodes w1) = view_state f (nodes w2)
    & draws w1 = draws w2].
Proof.
move=> E; split.
- exact: (congr1 (@wire _ _ _ _ _) E).
- exact: (congr1 (@nodes _ _ _ _ _) E).
- exact: (congr1 (@draws _ _ _ _ _) E).
Qed.

Lemma pick_draws (ro : Roster nat) (w1 w2 : World) :
  draws w1 = draws w2 -> pick ro w1 = pick ro w2.
Proof. by rewrite /OcsFacts.pick => ->. Qed.

Lemma write_unwinding (ocs : SkipChainURL nat) (encData sig : seq byte)
    (acl : Darc) (k1 k2 : seq byte) (w1 w2 : World) :
  f (sealed k1) = f (sealed k2) ->
  view_world f w1 = view_world f w2 ->
  [/\ view_world f (WriteRequest ocs encData k1 sig acl w1).2 =
      view_world f (WriteRequest ocs encData k2 sig acl w2).2,
      [seq view_reply f a
      | a <- received svc (WriteRequest ocs encData k1 sig acl) w1] =
      [seq view_reply f a
      | a <- received svc (WriteRequest ocs encData k2 sig acl) w2]
    & view_result f (WriteRequest ocs encData k1 sig acl w1).1 =
      view_result f (WriteRequest ocs encData k2 sig acl w2).1].
Proof.
move=> same E; have [ew es ed] := view_world_inj E.
case big: (too_big encData).
  rewrite /received /sent !WriteRequest_big //=.
  by rewrite !drop_size.
have p1 := pick_draws (Roster_of ocs) ed.
have p2 : pick (Roster_of ocs) (after_draw w1) =
          pick (Roster_of ocs) (after_draw w2).
  by apply: pick_draws; rewrite /= ed.
have em : view_msg f (write_msg ocs encData k1 sig acl) =
          view_msg f (write_msg ocs encData k2 sig acl).
  by rewrite /= /view_key /= same.
have [] := handle_same (pick (Roster_of ocs) (after_draw w2)) em es.
rewrite /received /sent !WriteRequest_small // p1 p2 /=.
rewrite !drop_size_rcons2 !handles_shared /=.
move: (handle _ _ _ (nodes w1)) (handle _ _ _ (nodes w2)).
move=> [a1 s1] [a2 s2] /= ea es'; split.
- by rewrite /view_world /= !map_rcons /= ew ed es' /view_key /= same.
- by rewrite ea.
- by rewrite !block_of_view ea.
Qed.

Lemma read_unwinding (ocs : SkipChainURL nat) (dataID : SkipBlockID) (xc : F)
    (w1 w2 : World) :
  view_world f w1 = view_world f w2 ->
  [/\ view_world f (ReadRequest ocs dataID xc w1).2 =
      view_world f (ReadRequest ocs dataID xc w2).2,
      [seq view_reply f a | a <- received svc (ReadRequest ocs dataID xc) w1] =
      [seq view_reply f a | a <- received svc (ReadRequest ocs dataID xc) w2]
    & view_result f (ReadRequest ocs dataID xc w1).1 =
      view_result f (ReadRequest ocs dataID xc w2).1].
Proof.
move=> E; have [ew es ed] := view_world_inj E.
case sg_ok: (sign xc dataID) => [err|sg].
  rewrite /received /sent !(ReadRequest_failed _ _ sg_ok) /=.
  by rewrite !drop_size.
have p1 := pick_draws (Roster_of ocs) ed.
have [] := handle_same (pick (Roster_of ocs) w2)
             (erefl (view_msg f (read_msg ocs dataID sg))) es.
rewrite /received /sent !(ReadRequest_signed _ _ sg_ok) p1 /=.
rewrite !drop_size_rcons !handles1 /=.
move: (handle _ _ _ (nodes w1)) (handle _ _ _ (nodes w2)).
move=> [a1 s1] [a2 s2] /= ea es'; split.
- by rewrite /view_world /= !map_rcons /= ew ed es'.
- by rewrite ea.
- by rewrite !block_of_view ea.
Qed.

Lemma decrypt_unwinding (ocs : SkipChainURL nat) (readID : SkipBlockID)
    (xc xc' : F) (w1 w2 : World) :
  view_world f w1 = view_world f w2 ->
  view_world f (DecryptKeyRequest ocs readID xc w1).2 =
  view_world f (DecryptKeyRequest ocs readID xc' w2).2 /\
  [seq view_reply f a | a <- received svc (DecryptKeyRequest ocs readID xc) w1] =
  [seq view_reply f a | a <- received svc (DecryptKeyRequest ocs readID xc') w2].
Proof.
move=> E; have [ew es ed] := view_world_inj E.
have p1 := pick_draws (Roster_of ocs) ed.
have [] := handle_same (pick (Roster_of ocs) w2)
             (erefl (view_msg f (decrypt_msg readID))) es.
rewrite /received /sent !DecryptKeyRequest_handled p1 /=.
rewrite !drop_size_rcons !handles1 /=.
move: (handle _ _ _ (nodes w1)) (handle _ _ _ (nodes w2)).
move=> [a1 s1] [a2 s2] /= ea es'; split.
- by rewrite /view_world /= !map_rcons /= ew ed es'.
- by rewrite ea.
Qed.

End Unwinding.

Lemma hide_sealed (k1 k2 : seq byte) :
  hide k1 k2 (sealed k1) = hide k1 k2 (sealed k2).
Proof. by rewrite /Secrecy.hide !eqxx orbT. Qed.

Lemma WriteRequest_sent (ocs : SkipChainURL nat) (encData k sig : seq byte)
    (acl : Darc) (w : World) :
  sent (WriteRequest ocs encData k sig acl) w =
    if too_big encData then [::]
    else [:: (pick (Roster_of ocs) w,
              MSharedPublic (mkSharedPublicRequest (Genesis ocs)));
             (pick (Roster_of ocs) (after_draw w),
              write_msg ocs encData k sig acl)].
Proof.
rewrite /sent; case big: (too_big encData).
  by rewrite WriteRequest_big //= drop_size.
by rewrite WriteRequest_small //= drop_size_rcons2.
Qed.

Lemma ReadRequest_sent (ocs : SkipChainURL nat) (dataID : SkipBlockID)
    (xc : F) (w : World) :
  sent (ReadRequest ocs dataID xc) w =
    if sign xc dataID is inr sg
    then [:: (pick (Roster_of ocs) w, read_msg ocs dataID sg)] else [::].
Proof.
rewrite /sent; case sg_ok: (sign xc dataID) => [err|sg].
  by rewrite (ReadRequest_failed _ _ sg_ok) /= drop_size.
by rewrite (ReadRequest_signed _ _ sg_ok) /= drop_size_rcons.
Qed.

Lemma DecryptKeyRequest_sent (ocs : SkipChainURL nat) (readID : SkipBlockID)
    (xc : F) (w : World) :
  sent (DecryptKeyRequest ocs readID xc) w =
    [:: (pick (Roster_of ocs) w, decrypt_msg readID)].
Proof. by rewrite /sent DecryptKeyRequest_handled /= drop_size_rcons. Qed.

Lemma world_eta (w : World) : mkWorld (wire w) (nodes w) (draws w) = w.
Proof. by case: w. Qed.

Lemma WriteRequest_replayed (ocs : SkipChainURL nat) (encData k sig : seq byte)
    (acl : Darc) (w : World) :
  replayed svc (WriteRequest ocs encData k sig acl) w.
Proof.
rewrite /replayed WriteRequest_sent; case big: (too_big encData).
  by rewrite WriteRequest_big //= cats0 addn0 world_eta.
rewrite WriteRequest_small // handles_shared /=.
by rewrite -!cats1 -catA addn2.
Qed.

Lemma ReadRequest_replayed (ocs : SkipChainURL nat) (dataID : SkipBlockID)
    (xc : F) (w : World) :
  replayed svc (ReadRequest ocs dataID xc) w.
Proof.
rewrite /replayed ReadRequest_sent; case sg_ok: (sign xc dataID) => [err|sg].
  by rewrite (ReadRequest_failed _ _ sg_ok) /= cats0 addn0 world_eta.
by rewrite (ReadRequest_signed _ _ sg_ok) handles1 /= cats1 addn1.
Qed.

Lemma DecryptKeyRequest_replayed (ocs : SkipChainURL nat)
    (readID : SkipBlockID) (xc : F) (w : World) :
  replayed svc (DecryptKeyRequest ocs readID xc) w.
Proof.
rewrite /replayed DecryptKeyRequest_sent DecryptKeyRequest_handled handles1 /=.
by rewrite cats1 addn1.
Qed.

Lemma sealed_plain (k : seq byte) (i : nat) :
  (i < size (embed k))%N ->
  (nth 0 (sealed k) i == nth 0 (embed k) i) = (r == 0) || (X G coefs == 0).
Proof.
move=> lt; rewrite /Secrecy.sealed (nth_map 0) // -scaler_eq0.
by rewrite -subr_eq0 addrK.
Qed.

Lemma sealed_clear (k : seq byte) :
  embed k != [::] -> r != 0 -> X G coefs != 0 -> embed k != sealed k.
Proof.
move=> ne r0 X0; have := sealed_plain (k := k) (i := 0).
rewrite (negbTE r0) (negbTE X0) /Secrecy.sealed /=.
case: (embed k) ne => [|K l] //= _ /(_ isT) ne.
by rewrite eqseq_cons eq_sym ne.
Qed.

Section Clear.

Variable k : seq byte.
Hypothesis key : embed k != [::].
Hypothesis r0 : r != 0.
Hypothesis X0 : X G coefs != 0.

Lemma WriteRequest_clear (ocs : SkipChainURL nat) (encData sig : seq byte)
    (acl : Darc) (w : World) :
  embed k \notin keys_state (nodes w) ->
  clear_of svc (embed k) (WriteRequest ocs encData k sig acl) w.
Proof.
apply: clear_replayed; first exact: WriteRequest_replayed.
rewrite WriteRequest_sent; case: (too_big encData) => //=.
by rewrite inE sealed_clear.
Qed.

Lemma ReadRequest_clear (ocs : SkipChainURL nat) (dataID : SkipBlockID)
    (xc : F) (w : World) :
  embed k \notin keys_state (nodes w) ->
  clear_of svc (embed k) (ReadRequest ocs dataID xc) w.
Proof.
apply: clear_replayed; first exact: ReadRequest_replayed.
by rewrite ReadRequest_sent; case: (sign xc dataID).
Qed.

Lemma DecryptKeyRequest_clear (ocs : SkipChainURL nat) (readID : SkipBlockID)
    (xc : F) (w : World) :
  embed k \notin keys_state (nodes w) ->
  clear_of svc (embed k) (DecryptKeyRequest ocs readID xc) w.
Proof.
apply: clear_replayed; first exact: DecryptKeyRequest_replayed.
by rewrite DecryptKeyRequest_sent.
Qed.

End Clear.


End Deployment.

(* Two worlds to compare: the toy deployment after a write of the key
   [1; 2], and after a write of the key [3; 4]. *)
Import ServiceFacts.

Local Notation toy_svc :=
  (service ToyNet.G ToyNet.check ToyNet.signer_of 4000%Z 4002%Z 4003%Z 4004%Z
           ToyNet.digest ToyNet.coefs 2 3 ToyNet.answer).
Local Notation toy_WriteRequest :=
  (Ocs.WriteRequest 4000%Z (NewWrite ToyNet.G ToyNet.embed 5) toy_svc (fun i => i)).
Local Notation toy_ReadRequest :=
  (Ocs.ReadRequest 4000%Z (fun sg : seq byte => sg) ToyNet.sign toy_svc
                   (fun i => i)).
Local Notation toy_hide :=
  (hide ToyNet.G ToyNet.embed ToyNet.coefs 5
        [:: Byte.x01; Byte.x02] [:: Byte.x03; Byte.x04]).

(* The toy world after a write of the key k. *)
Definition after_write (k : seq byte)
    : World nat (Darc ToyNet.Vq) (seq byte) (ToyNet.Vq * seq ToyNet.Vq)
            (State ToyNet.Vq) :=
  (toy_WriteRequest ToyNet.ocs [:: Byte.x09] k [::] ToyNet.acl ToyNet.w0).2.


(* The two keys are sealed to different points, and neither sealing holds
   a point of its key. *)
Example sealed_differ :
  (sealed ToyNet.G ToyNet.embed ToyNet.coefs 5 [:: Byte.x01; Byte.x02]
     != sealed ToyNet.G ToyNet.embed ToyNet.coefs 5 [:: Byte.x03; Byte.x04])
  && (sealed ToyNet.G ToyNet.embed ToyNet.coefs 5 [:: Byte.x01; Byte.x02]
        == [:: 16; 17])
  && (ToyNet.embed [:: Byte.x01; Byte.x02] == [:: 1; 2]).
Proof. by []. Qed.

End SecrecyFacts.

(* --------------------------------------------------------------------- *)
(* constructTree: the shape of the tree                                 *)
(* --------------------------------------------------------------------- *)
Module LayoutFacts.
Import Build BuildFacts TreeShape.

Ltac nnia := intros; nat_hyps; nat_goal; nat_ops; nia.

(* The addresses of the children of cell i once n cells exist, b per cell:
   i*b+1, ..., i*b+b, as far as they lie below n. *)
Definition kids_of (b n i : nat) : seq ptr :=
  iota (i * b).+1 (minn b (n - (i * b).+1)).

(* The store in which cell i carries host i and key i, and points to the
   cells kids_of b n i. *)
Definition layout (hosts pubs : seq string) (b n : nat) : heap :=
  [seq mkTree (nth EmptyString hosts i) (nth EmptyString pubs i) (kids_of b n i)
  | i <- iota 0 n].

Lemma size_layout hosts pubs b n : size (layout hosts pubs b n) = n.
Proof. by rewrite size_map size_iota. Qed.

Lemma cell_layout hosts pubs b n i :
  i < n ->
  cell (layout hosts pubs b n) i =
  mkTree (nth EmptyString hosts i) (nth EmptyString pubs i) (kids_of b n i).
Proof.
by move=> lt; rewrite /cell (nth_map 0) ?size_iota // nth_iota.
Qed.

Lemma heap_ext (h1 h2 : heap) :
  size h1 = size h2 -> (forall q, q < size h1 -> cell h1 q = cell h2 q) -> h1 = h2.
Proof. by move=> sz E; apply: (@eq_from_nth _ zeroTree). Qed.

Lemma attach_layout hosts pubs b k idx :
  k * b < idx -> idx < (k * b).+1 + b ->
  (attach (layout hosts pubs b idx) k (nth EmptyString hosts idx)
          (nth EmptyString pubs idx)).1 = layout hosts pubs b idx.+1.
Proof.
move=> lo hi.
have b1 : 0 < b by nlia.
have kidx : k < idx by have := leq_pmulr k b1; nlia.
have kh : k < size (layout hosts pubs b idx) by rewrite size_layout.
apply: heap_ext; first by rewrite size_attach // !size_layout.
move=> q; rewrite size_attach // size_layout ltnS => qle.
rewrite cell_attach // size_layout (@cell_layout _ _ _ idx.+1) //.
case: (eqVneq q k) => [->|nek].
  rewrite cell_layout //=; congr mkTree.
  rewrite /kids_of.
  have -> : minn b (idx.+1 - (k * b).+1) = (idx - (k * b).+1).+1.
    by rewrite (minn_idPr _); nlia.
  have -> : minn b (idx - (k * b).+1) = idx - (k * b).+1.
    by rewrite (minn_idPr _) //; nlia.
  rewrite -cats1 -[(idx - (k * b).+1).+1]addn1 iotaD /=; congr (_ ++ [:: _]).
  by nlia.
case: (eqVneq q idx) => [->|nei].
  congr mkTree; rewrite /kids_of.
  have -> : idx.+1 - (idx * b).+1 = 0.
    by have := leq_pmulr idx b1; nlia.
  by rewrite minn0.
have qlt : q < idx by nlia.
rewrite cell_layout //; congr mkTree; rewrite /kids_of; congr iota.
case: (ltnP q k) => qk.
  have le : (q * b).+1 + b <= idx.
    have : q.+1 * b <= k * b by rewrite leq_mul2r qk orbT.
    by rewrite mulSn; nlia.
  by rewrite !(minn_idPl _) //; nlia.
have le : idx < (q * b).+1.
  have : k.+1 <= q by rewrite ltn_neqAle eq_sym nek qk.
  move=> kq; have : k.+1 * b <= q * b by rewrite leq_mul2r kq orbT.
  by rewrite mulSn; nlia.
have -> : idx - (q * b).+1 = 0 by nlia.
by have -> : idx.+1 - (q * b).+1 = 0 by nlia.
Qed.

Section Run.

Variables (hosts pubs : seq string) (b : nat).

Local Notation L := (layout hosts pubs b).

(* The loop state when cell k is at the head of the queue and idx cells
   exist. *)
Definition front (k idx : nat) : state := mkState (L idx) (iota k (idx - k)) idx.

Lemma ltb_nat (x y : nat) : (Z.of_nat x <? Z.of_nat y)%Z = (x < y).
Proof.
by case: Z.ltb_spec => H; symmetry; [apply/idP|apply/negbTE]; nat_goal; lia.
Qed.

Lemma inner_layout fuel k idx :
  k * b < idx -> idx <= (k * b).+1 + b -> idx <= size hosts -> idx <= size pubs ->
  size hosts - idx <= fuel ->
  inner fuel hosts pubs (Z.of_nat b) k (idx - (k * b).+1) (front k idx) =
  if minn ((k * b).+1 + b) (size hosts) <= size pubs
  then Done (front k (minn ((k * b).+1 + b) (size hosts))) else Panic.
Proof.
elim: fuel idx => [|fuel IH] idx lo hi leN lem lef;
  rewrite ?inner0E ?innerSE ltb_nat -?[st_index (front k idx)]/idx
          -?[st_heap (front k idx)]/(L idx)
          -?[st_bfs (front k idx)]/(iota k (idx - k)).
  have eN : idx = size hosts by nlia.
  rewrite -eN ltnn andbF.
  have -> : minn ((k * b).+1 + b) idx = idx by rewrite (minn_idPr _).
  by rewrite lem.
case: (ltnP (idx - (k * b).+1) b) => [ltb|geb]; rewrite [_ && _]/=; last first.
  have e : idx = (k * b).+1 + b by nlia.
  have -> : minn ((k * b).+1 + b) (size hosts) = idx.
    by rewrite (minn_idPl _) // -e.
  by rewrite lem.
case: (ltnP idx (size hosts)) => [ltN|geN]; last first.
  have e : idx = size hosts by nlia.
  have -> : minn ((k * b).+1 + b) (size hosts) = idx.
    by rewrite (minn_idPr _) // -e.
  by rewrite lem.
rewrite (index_slice_nth EmptyString ltN).
case: (ltnP idx (size pubs)) => [ltm|gem]; last first.
  have -> : index_slice pubs idx = None.
    by rewrite /index_slice ltnNge gem.
  have -> // : (minn ((k * b).+1 + b) (size hosts) <= size pubs) = false.
  by rewrite geq_min; apply/negbTE; rewrite negb_or -!ltnNge; apply/andP; split; nlia.
have hi' : idx < (k * b).+1 + b by nlia.
rewrite (index_slice_nth EmptyString ltm) attach_layout //.
rewrite size_layout.
have -> : rcons (iota k (idx - k)) idx = iota k (idx.+1 - k).
  have kidx : k <= idx.
    by apply: leq_trans (ltnW lo); case: (b) ltb => // b' _; rewrite mulnS leq_addr.
  by rewrite subSn // -addn1 iotaD subnKC // cats1.
have -> : (idx - (k * b).+1).+1 = idx.+1 - (k * b).+1 by rewrite subSn.
by apply: IH => //; nlia.
Qed.

Lemma kids_of_none k idx : idx <= (k * b).+1 -> kids_of b idx k = [::].
Proof.
by move=> le; rewrite /kids_of; have -> : idx - (k * b).+1 = 0; [nlia|rewrite minn0].
Qed.

Lemma outer_layout fuel k idx :
  0 < b -> idx = minn (k * b).+1 (size hosts) -> 0 < idx -> idx <= size pubs ->
  size hosts - idx <= fuel ->
  match outer fuel hosts pubs (Z.of_nat b) (front k idx) with
  | Done s => size hosts <= size pubs /\ st_heap s = L (size hosts)
  | Panic => size pubs < size hosts
  | OutOfFuel => False
  end.
Proof.
move=> b1; elim: fuel k idx => [|fuel IH] k idx eidx pos lem lef;
  rewrite ?outer0E ?outerSE -?[st_index (front k idx)]/idx
          -?[st_heap (front k idx)]/(L idx)
          -?[st_bfs (front k idx)]/(iota k (idx - k)).
  have leN : idx <= size hosts by rewrite eidx geq_minr.
  have eN : idx = size hosts by nlia.
  by rewrite -eN ltnn andbF; split.
case: (ltnP idx (size hosts)) => [ltN|geN]; last first.
  have leN : idx <= size hosts by rewrite eidx geq_minr.
  have eN : idx = size hosts by nlia.
  by rewrite andbF; split=> //; rewrite -eN.
have ek : idx = (k * b).+1.
  by move: eidx ltN; rewrite /minn; case: ltnP => // _ ->; rewrite ltnn.
have kidx : k < idx by rewrite ek ltnS leq_pmulr.
have Eio : iota k (idx - k) = k :: iota k.+1 (idx - k.+1).
  by rewrite -[idx - k]prednK ?subn_gt0 //= -subnS.
rewrite Eio [_ && _]/=; cbv iota; rewrite -Eio.
rewrite cell_layout // [Name _]/= [PubKey _]/=.
have -> : store (L idx) k
            (mkTree (nth EmptyString hosts k) (nth EmptyString pubs k) [::]) = L idx.
  have {2}<- : store (L idx) k (cell (L idx) k) = L idx.
    by apply: store_same; rewrite size_layout.
  by rewrite cell_layout // kids_of_none // ek.
have E0 : idx - (k * b).+1 = 0 by rewrite ek subnn.
have := @inner_layout (size hosts) k idx.
rewrite E0 {1}/front => -> //; try by nlia.
set idx' := minn _ _.
have lt' : idx < idx' by rewrite /idx' leq_min ltN andbT; nlia.
have le' : idx' <= size hosts by rewrite geq_minr.
case: (leqP idx' (size pubs)) => [le2|gt2]; last by nlia.
have -> : mkState (st_heap (front k idx')) (behead (st_bfs (front k idx')))
                  (st_index (front k idx')) = front k.+1 idx'.
  by rewrite /front /= subnS; case: (idx' - k).
apply: IH => //.
- by rewrite /idx' mulSn; congr minn; nlia.
- by nlia.
- by nlia.
Qed.

End Run.

(* constructTree on every input. *)
Lemma constructTree_cases (hosts pubs : seq string) (bf : Z) :
  constructTree hosts pubs bf =
  if (size hosts == 0) || (size pubs == 0) then Panic
  else if (bf <? 1)%Z
       then Done ([:: mkTree (head EmptyString hosts) (head EmptyString pubs) [::]], 0)
       else if size hosts <= size pubs
            then Done (layout hosts pubs (Z.to_nat bf) (size hosts), 0)
            else Panic.
Proof.
case: hosts pubs => [|hn hosts] [|pk pubs] //.
rewrite [_ || _]/= [head _ _]/= [head _ _]/=.
pose s0 := mkState [:: mkTree hn pk [::]] [:: 0] 1.
rewrite -[constructTree _ _ _]/(match outer (size (hn :: hosts)).*2.+1
                                       (hn :: hosts) (pk :: pubs) bf s0 with
                                | Done s => Done (st_heap s, 0)
                                | Panic => Panic
                                | OutOfFuel => OutOfFuel
                                end).
case: Z.ltb_spec => bf1.
  rewrite outerSE [st_bfs s0]/= [st_index s0]/= [0 < _]/= andTb.
  case: ltnP => [lt|//].
  rewrite -[store _ _ _]/(st_heap s0) -[mkState (st_heap s0) _ _]/s0 innerSE.
  have -> : (Z.of_nat 0 <? bf)%Z = false by case: Z.ltb_spec => //; lia.
  by rewrite andFb; case: (size hosts).*2 => [|f]; rewrite ?outer0E ?outerSE.
have eb : bf = Z.of_nat (Z.to_nat bf) by rewrite Z2Nat.id //; lia.
have b1 : 0 < Z.to_nat bf by apply/leP; lia.
have e0 : s0 = front (hn :: hosts) (pk :: pubs) (Z.to_nat bf) 0 1.
  by rewrite /front /layout /= /kids_of mul0n subnn minn0.
have e1 : 1 = minn (0 * Z.to_nat bf).+1 (size (hn :: hosts)).
  by rewrite mul0n /= /minn; case: (size hosts).
have lef : size (hn :: hosts) - 1 <= (size (hn :: hosts)).*2.+1.
  by rewrite /=; nlia.
have := @outer_layout (hn :: hosts) (pk :: pubs) (Z.to_nat bf)
          (size (hn :: hosts)).*2.+1 0 1 b1 e1 isT isT lef.
rewrite -eb -e0.
case: (outer _ _ _ _ _) => [s| |] //.
- by case=> -> ->.
- by rewrite ltnNge => /negbTE->.
Qed.

Lemma kids_ofE (b n i : nat) :
  kids_of b n i = [seq j <- iota (i * b).+1 b | j < n].
Proof.
rewrite /kids_of; move: (i * b).+1 => a.
elim: b a => [|b IH] a; first by rewrite min0n.
rewrite [iota a b.+1]/= [filter _ _]/= -IH.
case: ltnP => [lt|ge].
  by rewrite -[n - a]prednK ?subn_gt0 // minnSS /= -subnS.
have -> : n - a = 0 by nlia.
by have -> : n - a.+1 = 0 by nlia.
Qed.

Lemma read_tree_fuel h f1 f2 p :
  wf h -> p < size h -> size h - p <= f1 -> size h - p <= f2 ->
  read_tree f1 h p = read_tree f2 h p.
Proof.
move=> wfh; elim: f1 f2 p => [|f1 IH] [|f2] p lt le1 le2 //=; try by nlia.
rewrite lt; congr (omap _ (oseq _)); apply/eq_in_map => c cin.
have /andP [pc ch] := wfh _ _ lt cin.
by apply: IH => //; nlia.
Qed.

Lemma read_treeS f h p :
  read_tree f.+1 h p =
  if p < size h then
    omap (Node (Name (cell h p)) (PubKey (cell h p)))
         (oseq [seq read_tree f h c | c <- Children (cell h p)])
  else None.
Proof. by []. Qed.

Lemma oseq_map (A B : Type) (f : A -> B) (s : seq A) :
  oseq [seq Some (f x) | x <- s] = Some [seq f x | x <- s].
Proof. by elim: s => [|x s /= ->]. Qed.

Section Complete.

Variables (hosts pubs : seq string) (b n : nat).
Hypothesis b1 : 0 < b.

Local Notation h := (layout hosts pubs b n).

Lemma mem_kids_of i c : c \in kids_of b n i -> [/\ (i * b).+1 <= c, i < c & c < n].
Proof.
rewrite mem_iota => /andP [lo hi].
have le : i <= i * b by rewrite leq_pmulr.
have := geq_minr b (n - (i * b).+1) => mn.
by split=> //; nlia.
Qed.

Lemma wf_layout : wf h.
Proof.
move=> p c; rewrite size_layout => lt; rewrite cell_layout //= => /mem_kids_of [_ pc cn].
by rewrite pc cn.
Qed.

(* The tree read back from cell i. *)
Definition tr (i : nat) : tree :=
  odflt (Node EmptyString EmptyString [::]) (read_tree n h i).

Lemma read_tr i : i < n -> read_tree n h i = Some (tr i).
Proof.
move=> lt; rewrite /tr.
by have [||T [-> _ _ _]] := @read_tree_ok h n i wf_layout;
  rewrite ?size_layout ?leq_subr.
Qed.

Lemma trE i :
  i < n ->
  tr i = Node (nth EmptyString hosts i) (nth EmptyString pubs i)
              [seq tr j | j <- kids_of b n i].
Proof.
move=> lt; apply: Some_inj; rewrite -read_tr //.
have en : n = n.-1.+1 by rewrite prednK //; apply: leq_ltn_trans lt.
rewrite {1}en read_treeS size_layout lt cell_layout // [Name _]/= [PubKey _]/=
        [Children _]/=.
have -> : [seq read_tree n.-1 h c | c <- kids_of b n i] =
          [seq Some (tr c) | c <- kids_of b n i].
  apply/eq_in_map => c /mem_kids_of [_ ic cn].
  rewrite -read_tr //; apply: read_tree_fuel; rewrite ?size_layout //.
  - exact: wf_layout.
  - by nlia.
  - by nlia.
by rewrite oseq_map.
Qed.

(* Balance: a cell at address i weighs (b-1)*i+1, and a child weighs at
   least b times its parent. *)
Definition weight (i : nat) : nat := (b - 1) * i + 1.

Lemma weight_kid i c : (i * b).+1 <= c -> weight i * b <= weight c.
Proof.
move=> le; rewrite /weight.
have : (b - 1) * (i * b).+1 <= (b - 1) * c by rewrite leq_mul2l le orbT.
have -> : ((b - 1) * i + 1) * b = (b - 1) * (i * b).+1 + 1.
  rewrite mulnDl mul1n mulnS mulnA; move: (_ * i * b) => x.
  by have b1' := b1; nlia.
by nlia.
Qed.

Lemma weight_mono i j : i <= j -> weight i <= weight j.
Proof. by move=> le; rewrite /weight leq_add2r leq_mul2l le orbT. Qed.

Lemma height_tr i : i < n -> weight i * b ^ height (tr i) <= weight n.-1.
Proof.
move: {2}(n - i) (leqnn (n - i)) => f; elim: f i => [|f IH] i le lt; first by nlia.
rewrite trE // [height _]/= -map_comp.
have: forall c, c \in kids_of b n i -> (i * b).+1 <= c /\ c < n /\ n - c <= f.
  by move=> c /mem_kids_of [? ? ?]; split=> //; split=> //; nlia.
elim: (kids_of b n i) => [|c cs IHcs] Hc.
  by rewrite /= expn0 muln1; apply: weight_mono; nlia.
have [ic [cn cf]] := Hc c (mem_head _ _).
have {}IHcs : weight i * b ^ foldr maxn 0
     [seq ((fun c0 => (height c0).+1) \o tr) i0 | i0 <- cs] <= weight n.-1.
  by apply: IHcs => c' cin; apply: Hc; rewrite inE cin orbT.
rewrite map_cons -[foldr maxn 0 (_ :: _)]/(maxn (height (tr c)).+1
    (foldr maxn 0 [seq ((fun c0 => (height c0).+1) \o tr) i0 | i0 <- cs])).
case: (leqP (height (tr c)).+1
    (foldr maxn 0 [seq ((fun c0 => (height c0).+1) \o tr) i0 | i0 <- cs])) => le2.
  exact: IHcs.
rewrite expnS mulnA.
apply: leq_trans (IH c cf cn).
by rewrite leq_mul2r weight_kid // orbT.
Qed.

Lemma kids_flat a c :
  flatten [seq kids_of b n i | i <- iota a c] =
  iota (a * b).+1 (minn (c * b) (n - (a * b).+1)).
Proof.
elim: c a => [|c IH] a; first by rewrite mul0n min0n.
rewrite [iota a c.+1]/= map_cons [flatten _]/= IH /kids_of mulSn.
case le: (n - (a * b).+1 <= b).
  move/idP: le => le.
  have -> : n - (b + a * b).+1 = 0 by nlia.
  rewrite minn0 cats0 (minn_idPr _) // (minn_idPr _) //.
  by apply: leq_trans le _; rewrite leq_addr.
have lt : b < n - (a * b).+1 by rewrite ltnNge le.
rewrite (minn_idPl (ltnW lt)).
have -> : minn (b + c * b) (n - (a * b).+1) =
          b + minn (c * b) (n - (b + a * b).+1).
  by rewrite addn_minr; congr minn; nlia.
by rewrite iotaD; congr (_ ++ iota _ _); nlia.
Qed.

Lemma level_order_front f a c :
  0 < c -> a + c = minn (a * b).+1 n -> n - a <= f ->
  level_order f [seq tr i | i <- iota a c] =
  [seq (nth EmptyString hosts i, nth EmptyString pubs i) | i <- iota a (n - a)].
Proof.
elim: f a c => [|f IH] a c cpos eac lef.
  by have := geq_minr (a * b).+1 n; rewrite -eac; nlia.
have len : a + c <= n by rewrite eac geq_minr.
have lab i : i \in iota a c ->
    label (tr i) = (nth EmptyString hosts i, nth EmptyString pubs i).
  by rewrite mem_iota => /andP [_ lt]; rewrite trE //; nlia.
have kid i : i \in iota a c -> kids (tr i) = [seq tr j | j <- kids_of b n i].
  by rewrite mem_iota => /andP [_ lt]; rewrite trE //; nlia.
have -> : level_order f.+1 [seq tr i | i <- iota a c] =
    [seq label t | t <- [seq tr i | i <- iota a c]] ++
    level_order f (flatten [seq kids t | t <- [seq tr i | i <- iota a c]]).
  by case: (c) cpos.
have Elab : [seq (label \o tr) i | i <- iota a c] =
    [seq (nth EmptyString hosts i, nth EmptyString pubs i) | i <- iota a c].
  exact/eq_in_map.
have Ekid : [seq (kids \o tr) i | i <- iota a c] =
    [seq [seq tr j | j <- kids_of b n i] | i <- iota a c].
  exact/eq_in_map.
have Eflat : flatten [seq [seq tr j | j <- kids_of b n i] | i <- iota a c] =
    [seq tr j | j <- flatten [seq kids_of b n i | i <- iota a c]].
  by rewrite map_flatten -map_comp.
rewrite -!map_comp Elab Ekid Eflat kids_flat.
case E0: (minn (c * b) (n - (a * b).+1)) => [|k'].
  have -> : level_order f [seq tr i | i <- iota (a * b).+1 0] = [::] by case: (f).
  rewrite cats0; congr (map _ (iota a _)).
  have nA : n <= (a * b).+1.
    move/eqP: E0; rewrite -leqn0 geq_min !leqn0 muln_eq0 subn_eq0.
    have /negbTE-> : c != 0 by rewrite -lt0n.
    by have /negbTE-> : b != 0 by rewrite -lt0n.
  by move: eac; rewrite (minn_idPr nA); nlia.
have pos' : 0 < minn (c * b) (n - (a * b).+1) by rewrite E0.
rewrite -E0.
have ltn : (a * b).+1 < n.
  by move: pos'; rewrite leq_min => /andP [_]; rewrite subn_gt0.
have eA : a + c = (a * b).+1 by rewrite eac (minn_idPl _) // ltnW.
rewrite -eA IH.
- by rewrite eA.
- rewrite eA addn_minr; congr minn; last by nlia.
  by rewrite -{2}eA mulnDl addSn.
- by nlia.
- by rewrite -map_cat -iotaD; congr (map _ (iota a _)); nlia.
Qed.

End Complete.

(** X1: for a non-empty host list, at least as many keys and a branching
    factor bf >= 1, constructTree returns the root at address 0 of a store
    with one cell per host, in input order: cell i carries host i and key i,
    and its children are, in order, the cells bf*i+1, ..., bf*i+bf that
    exist. Keys beyond the number of hosts are ignored. *)
Theorem constructTree_heap_layout (hosts pubs : seq string) (bf : Z) :
  0 < size hosts -> size hosts <= size pubs -> (1 <= bf)%Z ->
  exists h,
    [/\ constructTree hosts pubs bf = Done (h, 0),
        size h = size hosts
      & forall i, i < size hosts ->
          cell h i = mkTree (nth EmptyString hosts i) (nth EmptyString pubs i)
                       [seq j <- iota (i * Z.to_nat bf).+1 (Z.to_nat bf)
                       | j < size hosts]].
Proof.
move=> pos le bf1; exists (layout hosts pubs (Z.to_nat bf) (size hosts)).
split; last by move=> i lt; rewrite cell_layout // kids_ofE.
  rewrite constructTree_cases.
  have -> : (size hosts == 0) = false by case: (size hosts) pos.
  have -> : (size pubs == 0) = false by case: (size pubs) (leq_trans pos le).
  by rewrite le; case: Z.ltb_spec => //; lia.
by rewrite size_layout.
Qed.

Lemma constructTree_heap_layout_witness :
  exists h,
    [/\ constructTree [:: "a"; "b"; "c"; "d"]%string
                      [:: "1"; "2"; "3"; "4"; "5"]%string 3 = Done (h, 0),
        size h = 4
      & forall i, i < 4 ->
          cell h i = mkTree (nth EmptyString [:: "a"; "b"; "c"; "d"]%string i)
                       (nth EmptyString [:: "1"; "2"; "3"; "4"; "5"]%string i)
                       [seq j <- iota (i * 3).+1 3 | j < 4]].
Proof.
apply: (@constructTree_heap_layout [:: "a"; "b"; "c"; "d"]%string
          [:: "1"; "2"; "3"; "4"; "5"]%string 3).
- reflexivity.
- reflexivity.
- lia.
Defined.

(** X2: constructTree panics (index out of range) exactly when the host
    list is empty, the key list is empty, or bf >= 1 and there are fewer
    keys than hosts. *)
Theorem constructTree_panics_iff (hosts pubs : seq string) (bf : Z) :
  constructTree hosts pubs bf = Panic <->
  [\/ hosts = [::], pubs = [::] | (1 <= bf)%Z /\ size pubs < size hosts].
Proof.
rewrite constructTree_cases.
case: hosts => [|hn hosts] /=; first by split=> // _; apply: Or31.
case: pubs => [|pk pubs] /=; first by split=> // _; apply: Or32.
case: Z.ltb_spec => bf1.
  by split=> // -[] // [] ; lia.
rewrite !ltnS; case: leqP => le; split=> //.
- by case=> // -[].
- by move=> _; apply: Or33.
Qed.

(** X3: with a branching factor of zero or less, and at least one host and
    one key, constructTree returns the root alone, without children: every
    host but the first is left out of the tree. *)
Theorem constructTree_no_fanout (hosts pubs : seq string) (bf : Z) :
  0 < size hosts -> 0 < size pubs -> (bf <= 0)%Z ->
  constructTree hosts pubs bf =
  Done ([:: mkTree (head EmptyString hosts) (head EmptyString pubs) [::]], 0).
Proof.
move=> ph pp bf0; rewrite constructTree_cases.
have -> : (size hosts == 0) = false by case: (size hosts) ph.
have -> : (size pubs == 0) = false by case: (size pubs) pp.
by case: Z.ltb_spec => //; lia.
Qed.

Lemma constructTree_no_fanout_witness :
  constructTree [:: "a"; "b"; "c"]%string [:: "1"]%string (-2) =
  Done ([:: mkTree "a" "1" [::]], 0).
Proof.
apply: (@constructTree_no_fanout [:: "a"; "b"; "c"]%string [:: "1"]%string (-2)).
- reflexivity.
- reflexivity.
- lia.
Defined.

Lemma constructTree_reads (hosts pubs : seq string) (bf : Z) :
  0 < size hosts -> size hosts <= size pubs -> (1 <= bf)%Z ->
  let h := layout hosts pubs (Z.to_nat bf) (size hosts) in
  constructTree hosts pubs bf = Done (h, 0) /\
  read_tree (size h) h 0 = Some (tr hosts pubs (Z.to_nat bf) (size hosts) 0).
Proof.
move=> pos le bf1 /=; split.
  rewrite constructTree_cases.
  have -> : (size hosts == 0) = false by case: (size hosts) pos.
  have -> : (size pubs == 0) = false by case: (size pubs) (leq_trans pos le).
  by rewrite le; case: Z.ltb_spec => //; lia.
rewrite size_layout; apply: read_tr => //.
by apply/leP; lia.
Qed.

(** X4: the tree constructTree returns is balanced. With b = bf >= 1 and n
    hosts (and at least n keys), the longest path from the root has d edges
    where b^d <= (b-1)*(n-1) + 1; for bf = 2 this is 2^d <= n. *)
Theorem constructTree_height (hosts pubs : seq string) (bf : Z) :
  0 < size hosts -> size hosts <= size pubs -> (1 <= bf)%Z ->
  exists h T,
    [/\ constructTree hosts pubs bf = Done (h, 0),
        read_tree (size h) h 0 = Some T
      & Z.to_nat bf ^ height T <= (Z.to_nat bf - 1) * (size hosts - 1) + 1].
Proof.
move=> pos le bf1.
have [E R] := constructTree_reads pos le bf1.
exists (layout hosts pubs (Z.to_nat bf) (size hosts)),
       (tr hosts pubs (Z.to_nat bf) (size hosts) 0); split=> //.
have b1 : 0 < Z.to_nat bf by apply/leP; lia.
have := @height_tr hosts pubs (Z.to_nat bf) (size hosts) b1 0 pos.
by rewrite /weight muln0 add0n mul1n -[(size hosts).-1]subn1.
Qed.

Lemma constructTree_height_witness :
  exists h T,
    [/\ constructTree [:: "a"; "b"; "c"; "d"; "e"; "f"]%string
                      [:: "1"; "2"; "3"; "4"; "5"; "6"]%string 2 = Done (h, 0),
        read_tree (size h) h 0 = Some T
      & 2 ^ height T <= (2 - 1) * (6 - 1) + 1].
Proof.
apply: (@constructTree_height [:: "a"; "b"; "c"; "d"; "e"; "f"]%string
          [:: "1"; "2"; "3"; "4"; "5"; "6"]%string 2).
- reflexivity.
- reflexivity.
- lia.
Defined.

(** X5: constructTree fills the tree breadth first. For a non-empty host
    list, at least as many keys and bf >= 1, reading the returned tree level
    by level, each level from left to right, gives the (host, key) pairs in
    the order of the input lists. *)
Theorem constructTree_level_order (hosts pubs : seq string) (bf : Z) :
  0 < size hosts -> size hosts <= size pubs -> (1 <= bf)%Z ->
  exists h T,
    [/\ constructTree hosts pubs bf = Done (h, 0),
        read_tree (size h) h 0 = Some T
      & level_order (size hosts) [:: T] = zip hosts pubs].
Proof.
move=> pos le bf1.
have [E R] := constructTree_reads pos le bf1.
exists (layout hosts pubs (Z.to_nat bf) (size hosts)),
       (tr hosts pubs (Z.to_nat bf) (size hosts) 0); split=> //.
have b1 : 0 < Z.to_nat bf by apply/leP; lia.
have e1 : 0 + 1 = minn (0 * Z.to_nat bf).+1 (size hosts).
  by rewrite mul0n (minn_idPl _).
have := @level_order_front hosts pubs (Z.to_nat bf) (size hosts) b1
          (size hosts) 0 1 isT e1.
rewrite subn0 => -> //.
apply: (@eq_from_nth _ (EmptyString, EmptyString)).
  by rewrite size_map size_iota size_zip (minn_idPl _).
move=> i; rewrite size_map size_iota => lt.
rewrite (nth_map 0) ?size_iota // nth_iota // add0n nth_zip_cond.
by rewrite size_zip (minn_idPl _) // lt.
Qed.

Lemma constructTree_level_order_witness :
  exists h T,
    [/\ constructTree [:: "a"; "b"; "c"; "d"; "e"; "f"]%string
                      [:: "1"; "2"; "3"; "4"; "5"; "6"]%string 2 = Done (h, 0),
        read_tree (size h) h 0 = Some T
      & level_order 6 [:: T] =
        zip [:: "a"; "b"; "c"; "d"; "e"; "f"]%string
            [:: "1"; "2"; "3"; "4"; "5"; "6"]%string].
Proof.
apply: (@constructTree_level_order [:: "a"; "b"; "c"; "d"; "e"; "f"]%string
          [:: "1"; "2"; "3"; "4"; "5"; "6"]%string 2).
- reflexivity.
- reflexivity.
- lia.
Defined.

End LayoutFacts.

(* --------------------------------------------------------------------- *)
(* The build command: host file, aggregate key, configuration          *)
(* --------------------------------------------------------------------- *)
Module BuildCmdFacts.
Import Build BuildFacts TreeShape LayoutFacts BuildCmd.

Lemma size_Split s sep : size (Split s sep) = (occ sep s).+1.
Proof.
elim: s => [|c s IH] //=; case: (Ascii.eqb c sep); first by rewrite /= IH.
by case: (Split s sep) IH => [|piece rest].
Qed.

Lemma Split_none s sep : occ sep s = 0 -> Split s sep = [:: s].
Proof.
elim: s => [|c s IH] //=; case: (Ascii.eqb c sep) => //=.
by rewrite add0n => /IH->.
Qed.

Lemma Split_cat a p sep :
  occ sep a = 0 -> Split (a ++ String sep p)%string sep = a :: Split p sep.
Proof.
elim: a => [|c a IH] /=; first by rewrite Ascii.eqb_refl.
by case: (Ascii.eqb c sep) => //=; rewrite add0n => /IH->.
Qed.

Lemma wrap64_id z : (- 2 ^ 63 <= z < 2 ^ 63)%Z -> wrap64 z = z.
Proof. by move=> H; rewrite /wrap64 Z.mod_small; lia. Qed.

Section Command.

Variable open_lines : string -> error + seq string.
Variable DefaultPort : Z.
Variable VerifyPort : string -> Z -> error + string.
Variable Point : Type.
Variable Null : Point.
Variable Add : Point -> Point -> Point.
Variable ReadPub64 : string -> Point * option error.
Variable WritePub64 : Point -> error + string.
Variable suiteStr : string.

Local Notation scan := (scan DefaultPort VerifyPort).
Local Notation readHostFile := (readHostFile open_lines DefaultPort VerifyPort).
Local Notation aggregateKeys := (aggregateKeys Null Add ReadPub64).
Local Notation Build :=
  (Build open_lines DefaultPort VerifyPort Null Add ReadPub64 WritePub64 suiteStr).

Local Notation accepted := (accepted DefaultPort VerifyPort).
Local Notation host_of := (host_of DefaultPort VerifyPort).

Lemma scan_accepted lines hosts pubs ln :
  all accepted lines ->
  scan lines hosts pubs ln =
  Return (hosts ++ [seq host_of l | l <- lines],
          pubs ++ [seq key_of l | l <- lines], None).
Proof.
elim: lines hosts pubs ln => [|l lines IH] hosts pubs ln /=.
  by rewrite !cats0.
rewrite /accepted /host_of size_Split eqSS => /andP [/andP [-> ok] al] /=.
case: (VerifyPort _ _) ok => // h _.
by rewrite IH // !cat_rcons.
Qed.

Lemma scan_shape lines hosts pubs ln hs ps e :
  scan lines hosts pubs ln = Return (hs, ps, e) ->
  if e is None
  then [/\ all accepted lines, hs = hosts ++ [seq host_of l | l <- lines]
         & ps = pubs ++ [seq key_of l | l <- lines]]
  else hs = [::] /\ ps = [::].
Proof.
elim: lines hosts pubs ln => [|l lines IH] hosts pubs ln /=.
  by case=> <- <- <-; rewrite !cats0.
rewrite size_Split eqSS /accepted /host_of.
case E: (_ == _) => /=; last by case=> <- <- <-.
case: (VerifyPort _ _) => // h /IH {IH}.
by case: e => // -[-> -> ->]; rewrite !cat_rcons.
Qed.

Lemma scan_rejects gd bad rest hosts pubs ln :
  all accepted gd -> occ " "%char bad != 1 ->
  (0 <= ln)%Z -> (ln + Z.of_nat (size gd) < 2 ^ 63 - 1)%Z ->
  scan (gd ++ bad :: rest) hosts pubs ln =
  Return ([::], [::], Some (misformatted (ln + Z.of_nat (size gd) + 1))).
Proof.
elim: gd hosts pubs ln => [|l gd IH] hosts pubs ln.
  move=> _ nb ln0 lnb; rewrite /= size_Split eqSS nb Z.add_0_r /=.
  by rewrite wrap64_id //; move: lnb => /=; lia.
rewrite [all _ _]/= {1}/accepted => /andP [/andP [o1 ok] al] nb ln0.
rewrite [size _]/= Nat2Z.inj_succ => lnb.
have w : wrap64 (ln + 1) = (ln + 1)%Z by apply: wrap64_id; lia.
rewrite cat_cons [scan _ _ _ _]/= size_Split eqSS o1 /= w.
case: (VerifyPort _ _) ok => // h _.
rewrite IH //; try lia.
by congr (Return (_, _, Some (misformatted _))); lia.
Qed.

Lemma scan_returns lines hosts pubs ln :
  scan lines hosts pubs ln <> Panicked /\ scan lines hosts pubs ln <> Starved.
Proof.
elim: lines hosts pubs ln => [|l lines IH] hosts pubs ln //=.
by case: (_ != _) => //; case: (VerifyPort _ _).
Qed.

(** X6: when readHostFile returns without an error, it returns one host
    and one key for every line of the file: both lists have the length of
    the file, every line holds exactly one space, and the keys are the
    second fields of the lines, in order. *)
Theorem readHostFile_one_per_line (file : string) (hosts pubs : seq string) :
  readHostFile file = Return (hosts, pubs, None) ->
  exists lines,
    [/\ open_lines file = inr lines,
        size hosts = size lines, size pubs = size lines,
        all (fun l => occ " "%char l == 1) lines
      & pubs = [seq nth EmptyString (Split l " "%char) 1 | l <- lines]].
Proof.
rewrite /BuildCmd.readHostFile; case: (open_lines file) => [err|lines] //.
move/scan_shape => [al -> ->]; exists lines; split; rewrite ?size_map //.
by apply: sub_all al => l /andP [].
Qed.

(** X7: a host file whose lines are address, one space, key, with no
    space inside either and every address accepted by VerifyPort, is read
    back as the list of the addresses VerifyPort returns and the list of
    the keys, in the order of the lines. *)
Theorem readHostFile_parses (file : string) (entries : seq (string * string))
    (port : string -> string) :
  open_lines file =
    inr [seq (e.1 ++ String " "%char e.2)%string | e <- entries] ->
  (forall e, e \in entries ->
     [/\ occ " "%char e.1 = 0, occ " "%char e.2 = 0
       & VerifyPort e.1 DefaultPort = inr (port e.1)]) ->
  readHostFile file =
  Return ([seq port e.1 | e <- entries], [seq e.2 | e <- entries], None).
Proof.
move=> op ok; rewrite /BuildCmd.readHostFile op.
have S2 e : e \in entries ->
    Split (e.1 ++ String " "%char e.2)%string " "%char = [:: e.1; e.2].
  by case/ok => o1 o2 _; rewrite Split_cat // Split_none.
have al : all accepted [seq (e.1 ++ String " "%char e.2)%string | e <- entries].
  apply/allP => l /mapP [e ein ->].
  rewrite /accepted S2 //=; have [o1 o2 ->] := ok e ein.
  have := size_Split (e.1 ++ String " "%char e.2)%string " "%char.
  by rewrite S2 //= => -[<-]; rewrite eqxx.
rewrite (scan_accepted _ _ _ al) !cat0s -!map_comp.
congr (Return (_, _, None)); apply/eq_in_map => e ein.
  by rewrite /= /host_of S2 //=; have [_ _ ->] := ok e ein.
by rewrite /= /key_of S2.
Qed.

(** X8: if the first line that does not hold exactly one space is line
    number k+1, and the k lines before it are accepted, readHostFile
    returns no host, no key and the error
    Hostfile misformatted at line %!s(int=k+1); what follows that line is
    not looked at. *)
Theorem readHostFile_first_bad_line (file : string) (gd : seq string)
    (bad : string) (rest : seq string) :
  open_lines file = inr (gd ++ bad :: rest) ->
  all accepted gd -> occ " "%char bad != 1 ->
  (Z.of_nat (size gd) < 2 ^ 63 - 1)%Z ->
  readHostFile file =
  Return ([::], [::], Some (misformatted (Z.of_nat (size gd) + 1))).
Proof.
move=> op al nb lt; rewrite /BuildCmd.readHostFile op.
by rewrite scan_rejects.
Qed.

(** X9: Build panics exactly when the host file opens and holds no line:
    constructTree then indexes an empty host list. A file with at least one
    line never makes it panic, whatever the branching factor, because
    readHostFile returns as many keys as hosts. *)
Theorem Build_panics_iff (file : string) (bf : Z) (cfg : string) :
  Build file bf cfg = Panicked <-> open_lines file = inr [::].
Proof.
rewrite /BuildCmd.Build /BuildCmd.readHostFile.
case: (open_lines file) => [err|[|l lines]] //.
have [nP nS] := scan_returns (l :: lines) [::] [::] 0.
case S: (scan _ _ _ _) nP nS => [[[hs ps] e]| | |] // _ _.
case: e S => [e|] /scan_shape; first by split.
rewrite !cat0s => -[_ -> ->]; rewrite constructTree_cases.
rewrite !size_map /=; case: Z.ltb_spec => _; rewrite ?leqnn;
  by case: (WritePub64 _).
Qed.

(** X10: when Build writes a configuration with a branching factor
    bf >= 1, the Hosts field lists the address VerifyPort returned for
    every line of the host file, and the tree of the configuration, read
    level by level, lists these addresses with the keys of their lines in
    the order of the file. *)
Theorem Build_tree_of_file (file : string) (bf : Z) (cfg : string)
    (conf : ConfigConode) (out : string) :
  (1 <= bf)%Z -> Build file bf cfg = Return (conf, out) ->
  exists lines T,
    [/\ open_lines file = inr lines, out = cfg,
        Hosts conf = [seq host_of l | l <- lines],
        read_tree (size (Tree_of conf).1) (Tree_of conf).1 (Tree_of conf).2 = Some T
      & level_order (size lines) [:: T] =
        [seq (host_of l, key_of l) | l <- lines]].
Proof.
move=> bf1; rewrite /BuildCmd.Build /BuildCmd.readHostFile.
case: (open_lines file) => [err|lines] //.
case S: (scan _ _ _ _) => [[[hs ps] e]| | |] //.
case: e S => [e|] // /scan_shape; rewrite !cat0s => -[al eh ep].
case C: (constructTree hs ps bf) => [tree| |] //.
case: (WritePub64 _) => // b [<- <-] /=.
have sh : size hs = size lines by rewrite eh size_map.
have sp : size ps = size lines by rewrite ep size_map.
have pos : 0 < size hs.
  by case: (hs) C => //; rewrite constructTree_cases.
have le : size hs <= size ps by rewrite sh sp.
have [E R] := constructTree_reads pos le bf1.
move: C; rewrite E => -[<-] /=.
exists lines, (tr hs ps (Z.to_nat bf) (size hs) 0); split=> //.
have b1 : 0 < Z.to_nat bf by apply/leP; lia.
have e1 : 0 + 1 = minn (0 * Z.to_nat bf).+1 (size hs).
  by rewrite mul0n (minn_idPl _).
have := @level_order_front hs ps (Z.to_nat bf) (size hs) b1 (size hs) 0 1 isT e1.
rewrite subn0 sh => -> //; rewrite -sh.
apply: (@eq_from_nth _ (EmptyString, EmptyString)).
  by rewrite !size_map size_iota.
move=> i; rewrite size_map size_iota => lt.
rewrite (nth_map 0) ?size_iota // nth_iota // add0n.
rewrite (nth_map EmptyString) -?sh // eh ep.
by rewrite !(nth_map EmptyString) -?sh.
Qed.

Hypothesis AddA : forall a b c, Add (Add a b) c = Add a (Add b c).
Hypothesis AddC : forall a b, Add a b = Add b a.

Local Notation step := (fun k0 ki => Add k0 (ReadPub64 ki).1).

Lemma foldl_step_cons z x s : foldl step z (x :: s) = step (foldl step z s) x.
Proof.
elim: s z => [|y s IH] z //=.
by rewrite -IH /= AddA (AddC (ReadPub64 x).1) -AddA.
Qed.

Lemma foldl_step_rem z x s :
  x \in s -> foldl step z s = step (foldl step z (rem x s)) x.
Proof.
elim: s z => [|y s IH] z //=; rewrite inE.
case: (eqVneq y x) => [->|ne] /=; first by rewrite -foldl_step_cons.
by move=> /IH->.
Qed.

(** X11: aggregateKeys does not depend on the order of the keys: when the
    addition of the suite is associative and commutative, two key lists
    that are permutations of each other aggregate to the same point. *)
Theorem aggregateKeys_perm (pubs1 pubs2 : seq string) :
  perm_eq pubs1 pubs2 -> aggregateKeys pubs1 = aggregateKeys pubs2.
Proof.
rewrite /BuildCmd.aggregateKeys; move: Null => z.
elim: pubs1 pubs2 z => [|x s1 IH] s2 z.
  by move/perm_size/esym/size0nil->.
move=> P; have xin : x \in s2 by rewrite -(perm_mem P) mem_head.
rewrite foldl_step_cons (foldl_step_rem z xin); congr step.
apply: IH; rewrite -(perm_cons x).
by apply: perm_trans P _; apply: perm_to_rem.
Qed.

End Command.

(* A host file of three lines, a misformatted one, and a suite whose
   points are integers. *)
Module ToyCmd.

Definition open_lines (file : string) : error + seq string :=
  if String.eqb file "hosts" then
    inr [:: "a:2000 K1"; "b:2000 K22"; "c:2000 K333"]%string
  else if String.eqb file "bad" then
    inr [:: "a:2000 K1"; "b:2000  K22"; "c"]%string
  else inl "open: no such file"%string.

Definition VerifyPort (address : string) (port : Z) : error + string :=
  inr address.

Definition ReadPub64 (key : string) : Z * option error :=
  (Z.of_nat (String.length key), None).

Definition WritePub64 (p : Z) : error + string := inr (Itoa p).

Definition Build :=
  BuildCmd.Build open_lines 2000 VerifyPort 0%Z Z.add ReadPub64 WritePub64
                 "toy".

Definition written : ConfigConode :=
  Eval vm_compute in
    if Build "hosts"%string 2%Z "cfg"%string is Return (conf, _) then conf
    else mkConfigConode EmptyString ([::], 0) [::] EmptyString.

End ToyCmd.

Lemma readHostFile_one_per_line_witness :
  exists lines,
    [/\ ToyCmd.open_lines "hosts" = inr lines,
        size [:: "a:2000"; "b:2000"; "c:2000"]%string = size lines,
        size [:: "K1"; "K22"; "K333"]%string = size lines,
        all (fun l => occ " "%char l == 1) lines
      & [:: "K1"; "K22"; "K333"]%string =
        [seq nth EmptyString (Split l " "%char) 1 | l <- lines]].
Proof.
apply: (@readHostFile_one_per_line ToyCmd.open_lines 2000 ToyCmd.VerifyPort
          "hosts" [:: "a:2000"; "b:2000"; "c:2000"]%string
          [:: "K1"; "K22"; "K333"]%string).
reflexivity.
Defined.

Lemma readHostFile_parses_witness :
  readHostFile ToyCmd.open_lines 2000 ToyCmd.VerifyPort "hosts" =
  Return ([:: "a:2000"; "b:2000"; "c:2000"]%string,
          [:: "K1"; "K22"; "K333"]%string, None).
Proof.
apply: (@readHostFile_parses ToyCmd.open_lines 2000 ToyCmd.VerifyPort "hosts"
          [:: ("a:2000", "K1"); ("b:2000", "K22"); ("c:2000", "K333")]%string
          id).
- reflexivity.
- by move=> e; rewrite !inE => /or3P [] /eqP->.
Defined.

Lemma readHostFile_first_bad_line_witness :
  readHostFile ToyCmd.open_lines 2000 ToyCmd.VerifyPort "bad" =
  Return ([::], [::], Some (misformatted (Z.of_nat 1 + 1))).
Proof.
apply: (@readHostFile_first_bad_line ToyCmd.open_lines 2000 ToyCmd.VerifyPort
          "bad" [:: "a:2000 K1"%string] "b:2000  K22" [:: "c"%string]).
- reflexivity.
- reflexivity.
- reflexivity.
- reflexivity.
Defined.

Lemma Build_tree_of_file_witness :
  exists lines T,
    [/\ ToyCmd.open_lines "hosts" = inr lines, "cfg"%string = "cfg"%string,
        Hosts ToyCmd.written =
          [seq host_of 2000 ToyCmd.VerifyPort l | l <- lines],
        read_tree (size (Tree_of ToyCmd.written).1) (Tree_of ToyCmd.written).1
                  (Tree_of ToyCmd.written).2 = Some T
      & level_order (size lines) [:: T] =
        [seq (host_of 2000 ToyCmd.VerifyPort l, key_of l) | l <- lines]].
Proof.
apply: (@Build_tree_of_file ToyCmd.open_lines 2000 ToyCmd.VerifyPort Z 0%Z
          Z.add ToyCmd.ReadPub64 ToyCmd.WritePub64 "toy" "hosts" 2 "cfg"
          ToyCmd.written "cfg").
- lia.
- reflexivity.
Defined.

Lemma aggregateKeys_perm_witness :
  aggregateKeys 0%Z Z.add ToyCmd.ReadPub64 [:: "K1"; "K22"; "K333"]%string =
  aggregateKeys 0%Z Z.add ToyCmd.ReadPub64 [:: "K333"; "K1"; "K22"]%string.
Proof.
apply: (@aggregateKeys_perm Z 0%Z Z.add ToyCmd.ReadPub64).
- by move=> a b c; lia.
- by move=> a b; lia.
- reflexivity.
Defined.

End BuildCmdFacts.
